(** * workers: a beanstalk worker-pool client (client.go)

    Shallow embedding of [client.go]: the error classification
    [isTimeoutOrDeadline], the tube table built by [tubes], the one-shot
    [Stop], and the goroutines of [Reserve] ([Reserve] itself, [work],
    [quitOnSignal]) as a labelled transition system over the shared state
    of a [Client]: the buffered channel [MaxControl], the [stop] channel,
    the mutex [mu] and the wait group. *)

From stdpp Require Import base decidable option list strings gmap fin_sets.
From Stdlib Require Import ZArith Lia.

(** ** Errors *)

(** Error values created by imported packages: the sentinels and the
    [ConnError] struct of [github.com/kr/beanstalk], and any other
    [errors.New] value ([io.EOF], dial errors of [net]). Two sentinels are
    equal exactly when they are the same variable. *)
Inductive lib_error : Type :=
| ErrTimeout
| ErrDeadline
| ErrOther (msg : string)
| ConnError (Op : string) (Err : lib_error).

#[global] Instance lib_error_eq_dec : EqDecision lib_error.
Proof. solve_decision. Defined.

(** Go [error] values seen by package [workers]: its own
    [ErrClientHasQuit] (client.go:17), or an error of an imported package. *)
Inductive error : Type :=
| ErrClientHasQuit
| Lib (e : lib_error).

#[global] Instance error_eq_dec : EqDecision error.
Proof. solve_decision. Defined.

(** client.go:137-144 *)
Definition isTimeoutOrDeadline (err : error) : bool :=
  match err with
  | Lib (ConnError Op Err) =>
      String.eqb Op "reserve-with-timeout"
      && (bool_decide (Err = ErrTimeout) || bool_decide (Err = ErrDeadline))
  | _ => false
  end.

(** ** Handlers, tubes and jobs *)

(** [beanstalk.Conn] handles. *)
Definition Conn := nat.

(** [beanstalk.TubeSet]: a connection and the set of tube names read. *)
Record TubeSet : Type := mkTubeSet { ts_Conn : Conn; ts_Name : gset string }.

Definition NewTubeSet (conn : Conn) (name : string) : TubeSet :=
  mkTubeSet conn {[ name ]}.

(** Modelled from the spec: the [Handler] interface and the router
    [WorkMux] (mux.go is not part of the sources at hand). A handler is
    either a plain callback or a router; of a router only the result of
    [mux.Tubes()] matters to client.go, and it is carried as a list. *)
Inductive Handler : Type :=
| HandlerFunc
| WorkMux (Tubes : list string).

(** Modelled from the spec: [Job], built by [NewJob(conn, tube, id, body)]
    (job.go is not part of the sources at hand). *)
Record Job : Type := NewJob
  { job_conn : Conn; job_Tube : string; job_ID : N; job_Body : list Byte.byte }.

(** client.go:104-108, the local [names] of [tubes]: the type assertion
    of [c.Handler] to a [WorkMux] succeeds exactly for a router. *)
Definition tube_names (h : Handler) : list string :=
  match h with
  | WorkMux ts => ts
  | HandlerFunc => ["default"]
  end.

(** client.go:103-116 *)
Definition tubes (h : Handler) (conn : Conn) : gmap string TubeSet :=
  foldl (fun m name => <[ name := NewTubeSet conn name ]> m) ∅ (tube_names h).

(** ** Shared state and program counters *)

(** The [stop] channel: the zero value, made, closed. *)
Inductive chan : Type := ChNil | ChOpen | ChClosed.

#[global] Instance chan_eq_dec : EqDecision chan.
Proof. solve_decision. Defined.

(** How a call leaves a function. *)
Inductive outcome : Type :=
| Returns (e : error)
| Panics (msg : string).

(** Result of [tube.Reserve(0)] (client.go:72). *)
Inductive reserve_result : Type :=
| Reserved (id : N) (body : list Byte.byte)
| Failed (e : lib_error).

(** Control points of the goroutine that runs [ConnectAndWork] / [Reserve]. *)
Inductive main_pc : Type :=
| MDial                                   (* client.go:33 *)
| MEnter                                  (* client.go:54-61 *)
| MLoop                                   (* client.go:66-67 *)
| MScan (rem : gset string)               (* client.go:69-70, keys still to visit *)
| MReserve (name : string) (rem : gset string) (* client.go:72 *)
| MStop (e : lib_error)                   (* client.go:77 *)
| MIdle                                   (* client.go:88 *)
| MWait (o : outcome)                     (* deferred wg.Wait(), client.go:64 *)
| MClose (o : outcome)                    (* deferred bs.Close(), client.go:63 *)
| MReturned (e : error)
| MFatal.                                 (* a panic left Reserve *)

(** Control points of [quitOnSignal] (client.go:124-135). *)
Inductive bridge_pc : Type :=
| BNone                                   (* not spawned *)
| BSelect                                 (* client.go:130 *)
| BStop                                   (* client.go:133 *)
| BDefer                                  (* deferred wg.Done() *)
| BExited
| BPanic                                  (* Stop panicked, wg.Done() pending *)
| BFatal.

(** Control points of [work] (client.go:118-122). *)
Inductive worker_pc : Type :=
| WWork                                   (* client.go:120, handler running *)
| WRelease                                (* client.go:121 *)
| WDefer                                  (* deferred wg.Done(), client.go:119 *)
| WExited
| WPanic                                  (* handler panicked, wg.Done() pending *)
| WFatal.                                 (* deferred calls ran, panic unrecovered *)

#[global] Instance worker_pc_eq_dec : EqDecision worker_pc.
Proof. solve_decision. Defined.

#[global] Instance bridge_pc_eq_dec : EqDecision bridge_pc.
Proof. solve_decision. Defined.

(** One [work] goroutine; [w_releases] counts its receives from
    [MaxControl]. *)
Record worker : Type := mkWorker
  { w_job : Job; w_pc : worker_pc; w_releases : nat }.

Record state : Type := mkState
  { Handler_ : Handler;        (* c.Handler *)
    wait : Z;                  (* c.wait *)
    cap : nat;                 (* cap(c.MaxControl) *)
    tokens : nat;              (* len(c.MaxControl) *)
    mu : bool;                 (* c.mu is locked *)
    stop : chan;               (* c.stop *)
    tubeset : gmap string TubeSet; (* local [tubes] of Reserve *)
    wg : nat;                  (* wait-group counter *)
    closed : bool;             (* bs.Close() was called *)
    sigchan : bool;            (* a signal is buffered in sigchan *)
    crashed : bool;            (* the process died of an unrecovered panic *)
    mainpc : main_pc;
    bridge : bridge_pc;
    workers : list worker;
    (* history *)
    visited : list string;     (* tubes visited in the current scan, in order *)
    polled : list string;      (* tubes on which the current scan called Reserve *)
    stop_seen : bool;          (* Reserve received from c.stop *)
    fatal : option lib_error   (* the reservation error that ended the run *)
  }.

(** Field updates. *)
Definition set_tokens (x : nat) (s : state) : state :=
  mkState (Handler_ s) (wait s) (cap s) x (mu s) (stop s) (tubeset s) (wg s)
    (closed s) (sigchan s) (crashed s) (mainpc s) (bridge s) (workers s)
    (visited s) (polled s) (stop_seen s) (fatal s).

Definition set_mu (x : bool) (s : state) : state :=
  mkState (Handler_ s) (wait s) (cap s) (tokens s) x (stop s) (tubeset s) (wg s)
    (closed s) (sigchan s) (crashed s) (mainpc s) (bridge s) (workers s)
    (visited s) (polled s) (stop_seen s) (fatal s).

Definition set_stop (x : chan) (s : state) : state :=
  mkState (Handler_ s) (wait s) (cap s) (tokens s) (mu s) x (tubeset s) (wg s)
    (closed s) (sigchan s) (crashed s) (mainpc s) (bridge s) (workers s)
    (visited s) (polled s) (stop_seen s) (fatal s).

Definition set_tubeset (x : gmap string TubeSet) (s : state) : state :=
  mkState (Handler_ s) (wait s) (cap s) (tokens s) (mu s) (stop s) x (wg s)
    (closed s) (sigchan s) (crashed s) (mainpc s) (bridge s) (workers s)
    (visited s) (polled s) (stop_seen s) (fatal s).

Definition set_wg (x : nat) (s : state) : state :=
  mkState (Handler_ s) (wait s) (cap s) (tokens s) (mu s) (stop s) (tubeset s) x
    (closed s) (sigchan s) (crashed s) (mainpc s) (bridge s) (workers s)
    (visited s) (polled s) (stop_seen s) (fatal s).

Definition set_closed (x : bool) (s : state) : state :=
  mkState (Handler_ s) (wait s) (cap s) (tokens s) (mu s) (stop s) (tubeset s) (wg s)
    x (sigchan s) (crashed s) (mainpc s) (bridge s) (workers s)
    (visited s) (polled s) (stop_seen s) (fatal s).

Definition set_sigchan (x : bool) (s : state) : state :=
  mkState (Handler_ s) (wait s) (cap s) (tokens s) (mu s) (stop s) (tubeset s) (wg s)
    (closed s) x (crashed s) (mainpc s) (bridge s) (workers s)
    (visited s) (polled s) (stop_seen s) (fatal s).

Definition set_crashed (x : bool) (s : state) : state :=
  mkState (Handler_ s) (wait s) (cap s) (tokens s) (mu s) (stop s) (tubeset s) (wg s)
    (closed s) (sigchan s) x (mainpc s) (bridge s) (workers s)
    (visited s) (polled s) (stop_seen s) (fatal s).

Definition set_mainpc (x : main_pc) (s : state) : state :=
  mkState (Handler_ s) (wait s) (cap s) (tokens s) (mu s) (stop s) (tubeset s) (wg s)
    (closed s) (sigchan s) (crashed s) x (bridge s) (workers s)
    (visited s) (polled s) (stop_seen s) (fatal s).

Definition set_bridge (x : bridge_pc) (s : state) : state :=
  mkState (Handler_ s) (wait s) (cap s) (tokens s) (mu s) (stop s) (tubeset s) (wg s)
    (closed s) (sigchan s) (crashed s) (mainpc s) x (workers s)
    (visited s) (polled s) (stop_seen s) (fatal s).

Definition set_workers (x : list worker) (s : state) : state :=
  mkState (Handler_ s) (wait s) (cap s) (tokens s) (mu s) (stop s) (tubeset s) (wg s)
    (closed s) (sigchan s) (crashed s) (mainpc s) (bridge s) x
    (visited s) (polled s) (stop_seen s) (fatal s).

Definition set_visited (x : list string) (s : state) : state :=
  mkState (Handler_ s) (wait s) (cap s) (tokens s) (mu s) (stop s) (tubeset s) (wg s)
    (closed s) (sigchan s) (crashed s) (mainpc s) (bridge s) (workers s)
    x (polled s) (stop_seen s) (fatal s).

Definition set_polled (x : list string) (s : state) : state :=
  mkState (Handler_ s) (wait s) (cap s) (tokens s) (mu s) (stop s) (tubeset s) (wg s)
    (closed s) (sigchan s) (crashed s) (mainpc s) (bridge s) (workers s)
    (visited s) x (stop_seen s) (fatal s).

Definition set_stop_seen (x : bool) (s : state) : state :=
  mkState (Handler_ s) (wait s) (cap s) (tokens s) (mu s) (stop s) (tubeset s) (wg s)
    (closed s) (sigchan s) (crashed s) (mainpc s) (bridge s) (workers s)
    (visited s) (polled s) x (fatal s).

Definition set_fatal (x : option lib_error) (s : state) : state :=
  mkState (Handler_ s) (wait s) (cap s) (tokens s) (mu s) (stop s) (tubeset s) (wg s)
    (closed s) (sigchan s) (crashed s) (mainpc s) (bridge s) (workers s)
    (visited s) (polled s) (stop_seen s) x.

(** ** The operations on the shared objects *)

(** client.go:97-101. [c.mu.Lock(); close(c.stop); c.mu.Unlock()] is one
    critical section. [None]: the caller blocks on [mu]. Otherwise the new
    state and whether [close] panicked: closing a nil or an already closed
    channel panics, and then [Unlock] is not reached. *)
Definition Stop (s : state) : option (state * bool) :=
  if mu s then None
  else match stop s with
       | ChOpen => Some (set_stop ChClosed s, false)
       | ChClosed | ChNil => Some (set_mu true s, true)
       end.

(** [wg.Done()]: a counter that would become negative panics. *)
Definition wg_Done (s : state) : state :=
  match wg s with
  | O => set_crashed true s
  | S n => set_wg n s
  end.

(** [<-c.MaxControl]: [None] when the buffer is empty (the receiver blocks). *)
Definition recv_MaxControl (s : state) : option state :=
  match tokens s with
  | O => None
  | S n => Some (set_tokens n s)
  end.

(** ** Steps *)

Inductive select_case : Type :=
| CaseSend        (* case c.MaxControl <- 0 *)
| CaseStop        (* case <-c.stop *)
| CaseDefault     (* default *)
| CaseTimer.      (* case <-time.After(wait) *)

Inductive bridge_act : Type :=
| QSeeStop        (* case <-c.stop *)
| QSeeSignal      (* case <-sigchan *)
| QNext.          (* the next statement of quitOnSignal *)

Inductive worker_act : Type :=
| HReturn         (* c.Handler.Work(j) returns *)
| HPanic          (* c.Handler.Work(j) panics *)
| WNext.          (* the next statement of work *)

(** What the scheduler and the environment choose at each step. *)
Inductive label : Type :=
| LDial (r : option lib_error)       (* net.Dial returns *)
| LEnter                             (* Reserve, client.go:54-61 *)
| LRange                             (* client.go:67-69, a scan begins *)
| LSelect (name : string) (c : select_case) (* client.go:69-85 *)
| LRangeEnd                          (* the range is exhausted *)
| LReserved (r : reserve_result)     (* client.go:72-81 *)
| LMainStop                          (* client.go:77 *)
| LIdle (c : select_case)            (* client.go:88-92 *)
| LWait                              (* deferred wg.Wait() returns *)
| LClose                             (* deferred bs.Close() *)
| LUnwind                            (* the panic leaves Reserve *)
| LSignal                            (* SIGINT or SIGTERM is delivered *)
| LBridge (a : bridge_act)           (* a step of quitOnSignal *)
| LWorker (i : nat) (a : worker_act) (* a step of the i-th work goroutine *)
| LStop.                             (* c.Stop() called from outside *)

(** [return ErrClientHasQuit] (client.go:83, 90). *)
Definition quit : outcome := Returns ErrClientHasQuit.

(** Steps of the goroutine running [ConnectAndWork] and [Reserve], for one
    call: from the dial to the return. *)
Definition Reserve_step (l : label) (s : state) : option state :=
  match l, mainpc s with
  | LDial None, MDial => Some (set_mainpc MEnter s)
  | LDial (Some e), MDial => Some (set_mainpc (MReturned (Lib e)) s)
  | LEnter, MEnter =>
      if mu s then None
      else Some (set_mainpc MLoop
                (set_bridge BSelect
                (set_wg (S (wg s))
                (set_tubeset (tubes (Handler_ s) 0%nat)
                (set_stop ChOpen s)))))
  | LRange, MLoop =>
      Some (set_mainpc (MScan (dom (tubeset s)))
           (set_visited [] (set_polled [] s)))
  | LSelect name c, MScan rem =>
      if bool_decide (name ∈ rem) then
        let s1 := set_visited (visited s ++ [name]) s in
        let rem' := rem ∖ {[ name ]} in
        match c with
        | CaseSend =>
            if bool_decide (tokens s < cap s) then
              Some (set_mainpc (MReserve name rem')
                   (set_polled (polled s ++ [name])
                   (set_tokens (S (tokens s)) s1)))
            else None
        | CaseStop =>
            if bool_decide (stop s = ChClosed) then
              Some (set_mainpc (MWait quit) (set_stop_seen true s1))
            else None
        | CaseDefault =>
            if bool_decide (tokens s < cap s) || bool_decide (stop s = ChClosed)
            then None
            else Some (set_mainpc (MScan rem') s1)
        | _ => None
        end
      else None
  | LRangeEnd, MScan rem =>
      if bool_decide (rem = ∅) then Some (set_mainpc MIdle s) else None
  | LReserved (Reserved id body), MReserve name rem =>
      Some (set_mainpc (MScan rem)
           (set_workers (workers s ++ [mkWorker (NewJob 0%nat name id body) WWork 0])
           (set_wg (S (wg s)) s)))
  | LReserved (Failed e), MReserve name rem =>
      if isTimeoutOrDeadline (Lib e) then
        set_mainpc (MScan rem) <$> recv_MaxControl s
      else Some (set_mainpc (MStop e) (set_fatal (Some e) s))
  | LMainStop, MStop e =>
      match Stop s with
      | None => None
      | Some (s', false) => Some (set_mainpc (MWait (Returns (Lib e))) s')
      | Some (s', true) =>
          Some (set_mainpc (MWait (Panics "close of closed channel")) s')
      end
  | LIdle CaseStop, MIdle =>
      if bool_decide (stop s = ChClosed) then
        Some (set_mainpc (MWait quit) (set_stop_seen true s))
      else None
  | LIdle CaseTimer, MIdle => Some (set_mainpc MLoop s)
  | LWait, MWait o =>
      if bool_decide (wg s = 0%nat) then Some (set_mainpc (MClose o) s) else None
  | LClose, MClose o =>
      Some (set_mainpc (match o with Returns e => MReturned e | Panics _ => MFatal end)
           (set_closed true s))
  | LUnwind, MFatal => Some (set_crashed true s)
  | _, _ => None
  end.

(** Steps of [quitOnSignal]. *)
Definition quitOnSignal_step (a : bridge_act) (s : state) : option state :=
  match bridge s, a with
  | BSelect, QSeeStop =>
      if bool_decide (stop s = ChClosed) then Some (set_bridge BDefer s) else None
  | BSelect, QSeeSignal =>
      if sigchan s then Some (set_bridge BStop (set_sigchan false s)) else None
  | BStop, QNext =>
      match Stop s with
      | None => None
      | Some (s', false) => Some (set_bridge BDefer s')
      | Some (s', true) => Some (set_bridge BPanic s')
      end
  | BDefer, QNext => Some (set_bridge BExited (wg_Done s))
  | BPanic, QNext => Some (set_bridge BFatal (wg_Done s))
  | BFatal, QNext => Some (set_crashed true s)
  | _, _ => None
  end.

(** The [i]-th worker moves on. *)
Definition set_worker (i : nat) (w : worker) (s : state) : state :=
  set_workers (<[ i := w ]> (workers s)) s.

(** Steps of the [i]-th [work] goroutine. *)
Definition work_step (i : nat) (a : worker_act) (s : state) : option state :=
  match workers s !! i with
  | None => None
  | Some w =>
      match w_pc w, a with
      | WWork, HReturn => Some (set_worker i (mkWorker (w_job w) WRelease (w_releases w)) s)
      | WWork, HPanic => Some (set_worker i (mkWorker (w_job w) WPanic (w_releases w)) s)
      | WRelease, WNext =>
          set_worker i (mkWorker (w_job w) WDefer (S (w_releases w)))
            <$> recv_MaxControl s
      | WDefer, WNext =>
          Some (set_worker i (mkWorker (w_job w) WExited (w_releases w)) (wg_Done s))
      | WPanic, WNext =>
          Some (set_worker i (mkWorker (w_job w) WFatal (w_releases w)) (wg_Done s))
      | WFatal, WNext => Some (set_crashed true s)
      | _, _ => None
      end
  end.

(** One step of the whole program; [None] when the step is not enabled.
    A dead process takes no step. *)
Definition step (l : label) (s : state) : option state :=
  if crashed s then None
  else match l with
       | LSignal =>
           if bool_decide (bridge s = BNone) then None
           else Some (set_sigchan true s)
       | LBridge a => quitOnSignal_step a s
       | LWorker i a => work_step i a s
       | LStop =>
           match Stop s with
           | None => None
           | Some (s', false) => Some s'
           | Some (s', true) => Some (set_crashed true s')
           end
       | _ => Reserve_step l s
       end.

Fixpoint exec (ls : list label) (s : state) : option state :=
  match ls with
  | [] => Some s
  | l :: ls' =>
      match step l s with
      | Some s' => exec ls' s'
      | None => None
      end
  end.

(** The client on which [ConnectAndWork] is called for the first time: a
    client literal with a [MaxControl] of capacity [n], as the tests build
    it and as the package function [ConnectAndWork] builds it
    (client.go:44-48) once [make(chan int, max)] has returned a channel of
    [n = max] slots. [MaxControl] is empty and [stop] is still nil. *)
Definition client (h : Handler) (wait_ms : Z) (n : nat) : state :=
  mkState h wait_ms n 0 false ChNil ∅ 0 false false false
    MDial BNone [] [] [] false None.

(** States some execution reaches. *)
Definition reachable_from (s0 s : state) : Prop :=
  ∃ ls, exec ls s0 = Some s.

(** States of one call of [ConnectAndWork] on a client in its initial
    state, up to its return. A later call of [Reserve] on the same client
    is not part of these runs. *)
Definition reachable (s : state) : Prop :=
  ∃ h w n, reachable_from (client h w n) s.

(** ** Counting tokens and wait-group members *)

(** A worker holds its admission token until it has received from
    [MaxControl]. *)
Definition holds (w : worker) : nat :=
  match w_pc w with
  | WWork | WRelease | WPanic | WFatal => 1
  | WDefer | WExited => 0
  end.

(** A worker counts in the wait group until its deferred [wg.Done()] ran. *)
Definition live (w : worker) : nat :=
  match w_pc w with
  | WWork | WRelease | WDefer | WPanic => 1
  | WExited | WFatal => 0
  end.

(** The signal bridge counts in the wait group until its [wg.Done()] ran. *)
Definition blive (b : bridge_pc) : nat :=
  match b with
  | BSelect | BStop | BDefer | BPanic => 1
  | BNone | BExited | BFatal => 0
  end.

(** Sum of a per-worker count over all workers. *)
Definition total (f : worker → nat) (ws : list worker) : nat :=
  sum_list_with f ws.

(** The token Reserve itself holds: during [tube.Reserve], and for good
    once a reservation failed fatally. *)
Definition main_holds (s : state) : nat :=
  match mainpc s with
  | MReserve _ _ => 1
  | _ => match fatal s with Some _ => 1 | None => 0 end
  end.

(** ** The invariant of reachable states *)

(** What holds once Reserve has left the loop with outcome [o]: the stop
    channel is closed, and [o] is the quit error after a received stop, or
    comes from the fatal reservation error. *)
Definition exit_inv (o : outcome) (s : state) : Prop :=
  stop s = ChClosed ∧ bridge s ≠ BNone ∧
  match fatal s with
  | None => o = quit ∧ stop_seen s = true
  | Some e =>
      isTimeoutOrDeadline (Lib e) = false ∧ stop_seen s = false ∧
      match o with Returns r => r = Lib e | Panics _ => True end
  end.

(** Reserve has not been entered. *)
Definition fresh (s : state) : Prop :=
  stop s = ChNil ∧ bridge s = BNone ∧ workers s = [] ∧ fatal s = None ∧
  stop_seen s = false ∧ closed s = false ∧ visited s = [] ∧ polled s = [].

(** Reserve is in its loop. *)
Definition running (s : state) : Prop :=
  stop s ≠ ChNil ∧ bridge s ≠ BNone ∧ fatal s = None ∧
  stop_seen s = false ∧ closed s = false.

(** What each control point of Reserve implies for the shared state. *)
Definition pc_inv (s : state) : Prop :=
  match mainpc s with
  | MDial | MEnter => fresh s
  | MLoop | MScan _ | MReserve _ _ | MIdle => running s
  | MStop e =>
      stop s ≠ ChNil ∧ bridge s ≠ BNone ∧ fatal s = Some e ∧
      isTimeoutOrDeadline (Lib e) = false ∧ stop_seen s = false ∧ closed s = false
  | MWait o => exit_inv o s ∧ closed s = false
  | MClose o => exit_inv o s ∧ closed s = false ∧ wg s = 0
  | MReturned r =>
      (fresh s ∧ ∃ e, r = Lib e) ∨ (exit_inv (Returns r) s ∧ closed s = true ∧ wg s = 0)
  | MFatal => exit_inv (Panics "") s ∧ closed s = true ∧ wg s = 0
  end.

(** The scan visits pairwise distinct tubes of the table, polls only
    visited ones, and the keys still to visit are those not yet visited. *)
Definition scan_inv (s : state) : Prop :=
  NoDup (visited s) ∧ polled s `sublist_of` visited s ∧
  (∀ x, x ∈ visited s → x ∈ dom (tubeset s)) ∧
  match mainpc s with
  | MScan rem | MReserve _ rem => ∀ x, x ∈ rem ↔ x ∈ dom (tubeset s) ∧ x ∉ visited s
  | MIdle => ∀ x, x ∈ dom (tubeset s) → x ∈ visited s
  | _ => True
  end.

(** Tokens in [MaxControl] are those of Reserve and of the workers that
    have not released; the wait-group counter counts the goroutines that
    have not executed [wg.Done()]. *)
Record Inv (s : state) : Prop := mkInv
  { inv_tokens : tokens s = main_holds s + total holds (workers s);
    inv_cap : tokens s ≤ cap s;
    inv_wg : wg s = blive (bridge s) + total live (workers s);
    inv_releases : ∀ i w, workers s !! i = Some w → w_releases w + holds w = 1;
    inv_pc : pc_inv s;
    inv_scan : scan_inv s }.

(** ** Progress: draining the workers and returning *)

(** Statements a worker still has to execute on its normal path. *)
Definition rank (w : worker) : nat :=
  match w_pc w with
  | WWork => 3
  | WRelease => 2
  | WDefer => 1
  | WExited | WPanic | WFatal => 0
  end.

(** The handler of the worker panicked. *)
Definition panicking (w : worker) : bool :=
  match w_pc w with
  | WPanic | WFatal => true
  | _ => false
  end.

(** No handler has panicked. *)
Definition calm (s : state) : Prop :=
  Forall (λ w, panicking w = false) (workers s).

(** The state of Reserve and of the shared objects other than the
    counters is the same. *)
Definition same_ctl (s s' : state) : Prop :=
  mainpc s' = mainpc s ∧ bridge s' = bridge s ∧ stop s' = stop s ∧
  mu s' = mu s ∧ closed s' = closed s ∧ crashed s' = crashed s.

(** The signal bridge has not received a signal and has not panicked. *)
Definition bridge_quiet (s : state) : Prop :=
  bridge s = BSelect ∨ bridge s = BDefer ∨ bridge s = BExited.

(** ** Reservation failures *)

(** The two "nothing ready" failures of the reserve operation. *)
Definition transient (e : lib_error) : Prop :=
  ∃ cause, e = ConnError "reserve-with-timeout" cause ∧
           (cause = ErrTimeout ∨ cause = ErrDeadline).

(** Reserve is on its way out: it will not scan again. *)
Definition exiting (pc : main_pc) : bool :=
  match pc with
  | MStop _ | MWait _ | MClose _ | MReturned _ | MFatal => true
  | _ => false
  end.

(** ** Example runs *)

(** The state a run ends in (the initial state if some step of it is not
    enabled). *)
Definition run (ls : list label) (s : state) : state :=
  from_option id s (exec ls s).

(** What a reservation on a closed connection fails with: the write of the
    command hits [io.EOF]. *)
Definition eof : lib_error := ConnError "reserve-with-timeout" (ErrOther "EOF").

(** The reserve command found no job ready. *)
Definition timeout : lib_error := ConnError "reserve-with-timeout" ErrTimeout.

(** Reserve has acquired a token and is inside [tube.Reserve(0)]. *)
Definition to_reserve : list label :=
  [LDial None; LEnter; LRange; LSelect "default" CaseSend].

Definition reserving : state := run to_reserve (client HandlerFunc 10 1).

(** One job is reserved and handled, a caller stops the client, and
    Reserve returns after the handler has finished. *)
Definition quit_run : list label :=
  [LDial None; LEnter; LRange; LSelect "default" CaseSend;
   LReserved (Reserved 1 []); LStop; LRangeEnd; LIdle CaseStop;
   LWorker 0 HReturn; LWorker 0 WNext; LWorker 0 WNext;
   LBridge QSeeStop; LBridge QNext; LWait; LClose].

Definition quitted : state := run quit_run (client HandlerFunc 10 1).

(** The run of a stop request arriving while one handler is still at work:
    Reserve has left the loop and waits in the join. *)
Definition join_run : list label :=
  [LDial None; LEnter; LRange; LSelect "default" CaseSend;
   LReserved (Reserved 1 []); LStop; LRangeEnd; LIdle CaseStop].

Definition joining : state := run join_run (client HandlerFunc 10 1).

(** The handler of the only job panics; its deferred [wg.Done()] has
    run. *)
Definition panic_run : list label :=
  [LDial None; LEnter; LRange; LSelect "default" CaseSend;
   LReserved (Reserved 1 []); LWorker 0 HPanic; LWorker 0 WNext].

Definition panicked : state := run panic_run (client HandlerFunc 10 1).

(** Two full scans over the tubes of the same router, none with a job
    ready, in the two possible orders. *)
Definition scan_ab : list label :=
  [LDial None; LEnter; LRange;
   LSelect "a" CaseSend; LReserved (Failed timeout);
   LSelect "b" CaseSend; LReserved (Failed timeout); LRangeEnd].

Definition scan_ba : list label :=
  [LDial None; LEnter; LRange;
   LSelect "b" CaseSend; LReserved (Failed timeout);
   LSelect "a" CaseSend; LReserved (Failed timeout); LRangeEnd].

Definition scanned_ab : state := run scan_ab (client (WorkMux ["a"; "b"]) 10 2).

Definition scanned_ba : state := run scan_ba (client (WorkMux ["a"; "b"]) 10 2).

(** The run of the test TestUnexpectedErrorReturned: the only reservation
    fails with an error that is not a timeout. *)
Definition fatal_run : list label :=
  [LDial None; LEnter; LRange; LSelect "default" CaseSend;
   LReserved (Failed eof); LMainStop;
   LBridge QSeeStop; LBridge QNext; LWait; LClose].

Definition failed : state := run fatal_run (client HandlerFunc 0 1).

(** A caller stops a running client twice. *)
Definition stop_twice : list label := [LDial None; LEnter; LStop; LStop].

(** A signal arrives while Reserve is inside a reservation that then fails
    with an error that is not a timeout: the bridge and Reserve both call
    [Stop]. *)
Definition signal_then_fatal : list label :=
  [LDial None; LEnter; LRange; LSelect "default" CaseSend;
   LSignal; LBridge QSeeSignal; LBridge QNext;
   LReserved (Failed eof); LMainStop].

(** ** Further invariants and runs *)

(** The handler of this worker is running. *)
Definition at_work (w : worker) : nat :=
  match w_pc w with
  | WWork => 1
  | _ => 0
  end.

(** quitOnSignal is past its select. *)
Definition bridge_left (b : bridge_pc) : bool :=
  match b with
  | BDefer | BExited | BPanic | BFatal => true
  | BNone | BSelect | BStop => false
  end.

(** The tube table is the one [tubes] built when Reserve was entered, the
    jobs of the workers and the tube being reserved from come from it, and
    quitOnSignal leaves its select only once the stop channel is closed. *)
Record Inv2 (s : state) : Prop := mkInv2
  { inv_table :
      match bridge s with
      | BNone => tubeset s = ∅
      | _ => tubeset s = tubes (Handler_ s) 0
      end;
    inv_jobs :
      Forall (λ w, job_Tube (w_job w) ∈ dom (tubeset s) ∧ job_conn (w_job w) = 0)
        (workers s);
    inv_reserving :
      match mainpc s with
      | MReserve name _ => name ∈ dom (tubeset s)
      | _ => True
      end;
    inv_bridge : bridge_left (bridge s) = true → stop s = ChClosed }.

(** A scan over two tubes that reserves a job from the tube "b". *)
Definition scan_job : list label :=
  [LDial None; LEnter; LRange; LSelect "b" CaseSend; LReserved (Reserved 7 [])].

Definition scanned_job : state := run scan_job (client (WorkMux ["a"; "b"]) 10 2).

(** A client that cannot reserve: its [MaxControl] has no room, or its
    router names no tube. Nothing has been polled, no worker exists and
    [MaxControl] is empty. *)
Definition idle_inv (s : state) : Prop :=
  (cap s = 0 ∨ Handler_ s = WorkMux [] ∧ tubeset s = ∅) ∧
  workers s = [] ∧ (cap s = 0 ∨ visited s = []) ∧ polled s = [] ∧ tokens s = 0 ∧
  match mainpc s with
  | MReserve _ _ | MStop _ => False
  | MScan rem => cap s = 0 ∨ rem = ∅
  | _ => True
  end.

(** A scan of a client without capacity, and a scan of a router without
    tubes. *)
Definition scan_nocap : list label :=
  [LDial None; LEnter; LRange; LSelect "default" CaseDefault; LRangeEnd].

Definition scanned_nocap : state := run scan_nocap (client HandlerFunc 10 0).

Definition scan_notube : list label :=
  [LDial None; LEnter; LRange; LRangeEnd; LIdle CaseTimer; LRange].

Definition scanned_notube : state := run scan_notube (client (WorkMux []) 10 3).

(** Reserve has been entered and waits in its loop. *)
Definition entered : state := run [LDial None; LEnter] (client HandlerFunc 10 1).

(** Reserve is about to poll the tube "default" with a free token. *)
Definition scanning : state :=
  run [LDial None; LEnter; LRange] (client HandlerFunc 10 1).

(** Steps of the engine left alone: no signal, no [Stop] from outside, no
    panic in a handler. *)
Definition engine_only (l : label) : bool :=
  match l with
  | LStop | LSignal | LWorker _ HPanic => false
  | _ => true
  end.

(** Steps of a run that only a signal can stop: no [Stop] from outside, no
    panic in a handler, no reservation failure other than the two
    "nothing ready" ones. *)
Definition signal_only (l : label) : bool :=
  match l with
  | LStop | LWorker _ HPanic => false
  | LReserved (Failed e) => isTimeoutOrDeadline (Lib e)
  | _ => true
  end.

(** Left alone, only Reserve closes the stop channel, and it does so once. *)
Definition alone_inv (s : state) : Prop :=
  crashed s = false ∧ mu s = false ∧ sigchan s = false ∧ stop_seen s = false ∧
  calm s ∧
  match bridge s with BStop | BPanic | BFatal => False | _ => True end ∧
  match mainpc s with
  | MLoop | MScan _ | MReserve _ _ | MIdle | MStop _ => stop s = ChOpen
  | MWait (Returns r) | MClose (Returns r) | MReturned r => r ≠ ErrClientHasQuit
  | MWait (Panics _) | MClose (Panics _) | MFatal => False
  | MDial | MEnter => True
  end.

(** Without outside stops and fatal failures, only quitOnSignal closes the
    stop channel, and it does so once. *)
Definition signalled_inv (s : state) : Prop :=
  crashed s = false ∧ mu s = false ∧ fatal s = None ∧ calm s ∧
  match bridge s with
  | BSelect | BStop => stop s = ChOpen
  | BPanic | BFatal => False
  | BNone | BDefer | BExited => True
  end ∧
  match mainpc s with
  | MStop _ | MFatal | MWait (Panics _) | MClose (Panics _) => False
  | MWait (Returns r) | MClose (Returns r) => r = ErrClientHasQuit
  | MReturned r => r = ErrClientHasQuit ∨ bridge s = BNone
  | _ => True
  end.

(** A signal stops a client that handles one job. *)
Definition signal_run : list label :=
  [LDial None; LEnter; LRange; LSelect "default" CaseSend;
   LReserved (Reserved 1 []); LSignal; LBridge QSeeSignal; LBridge QNext;
   LRangeEnd; LIdle CaseStop;
   LWorker 0 HReturn; LWorker 0 WNext; LWorker 0 WNext;
   LBridge QNext; LWait; LClose].

Definition signalled : state := run signal_run (client HandlerFunc 10 1).

(** ** A fatal failure after the stop channel was closed *)

(** A panic is unwinding Reserve: its deferred calls run, it will not
    return. *)
Definition unwinding (pc : main_pc) : bool :=
  match pc with
  | MWait (Panics _) | MClose (Panics _) | MFatal => true
  | _ => false
  end.

(** A caller stops the client while Reserve is inside a reservation that
    then fails with an error that is not a timeout. *)
Definition stop_then_fatal : list label :=
  [LDial None; LEnter; LRange; LSelect "default" CaseSend;
   LStop; LReserved (Failed eof); LMainStop].

(** Reserve after its own [Stop] has panicked, the stop channel having been
    closed by quitOnSignal, or by a caller. *)
Definition signal_fired : state := run signal_then_fatal (client HandlerFunc 10 1).

Definition stop_fired : state := run stop_then_fatal (client HandlerFunc 10 1).

(** * Proofs *)

Arguments isTimeoutOrDeadline : simpl never.

Ltac red_state :=
  cbv [set_worker set_tokens set_mu set_stop set_tubeset set_wg set_closed
       set_sigchan set_crashed set_mainpc set_bridge set_workers set_visited
       set_polled set_stop_seen set_fatal wg_Done recv_MaxControl Stop
       Handler_ wait cap tokens mu stop tubeset wg closed sigchan crashed
       mainpc bridge workers visited polled stop_seen fatal
       pc_inv scan_inv main_holds fresh running exit_inv quit] in *.

Ltac destruct_hyps :=
  repeat match goal with
  | H : _ ∧ _ |- _ => destruct H
  | H : ∃ _, _ |- _ => destruct H
  | H : _ ∨ _ |- _ => destruct H
  end.

Ltac scan_goal :=
  match goal with
  | |- NoDup [] => constructor
  | |- NoDup (_ ++ [_]) =>
      apply NoDup_app; split_and!; [done | set_solver | apply NoDup_singleton]
  | |- _ `sublist_of` _ =>
      first [done | by apply sublist_app | by apply sublist_inserts_r]
  | |- ∀ x : string, _ => set_solver
  end.

(** ** Counting tokens and wait-group members *)

Lemma total_app (f : worker → nat) (ws1 ws2 : list worker) :
  total f (ws1 ++ ws2) = total f ws1 + total f ws2.
Proof. apply sum_list_with_app. Qed.

Lemma total_insert (f : worker → nat) (ws : list worker) i w w' :
  ws !! i = Some w →
  total f (<[ i := w' ]> ws) + f w = total f ws + f w'.
Proof.
  unfold total. revert i. induction ws as [|x ws IH]; intros [|i] Hi; simplify_eq/=.
  - lia.
  - specialize (IH _ Hi). lia.
Qed.

Lemma total_lookup_le (f : worker → nat) (ws : list worker) i w :
  ws !! i = Some w → f w ≤ total f ws.
Proof.
  unfold total. revert i. induction ws as [|x ws IH]; intros [|i] Hi; simplify_eq/=.
  - lia.
  - specialize (IH _ Hi). lia.
Qed.

Lemma total_zero (f : worker → nat) (ws : list worker) :
  total f ws = 0 → ∀ i w, ws !! i = Some w → f w = 0.
Proof. intros H i w Hi. pose proof (total_lookup_le f _ _ _ Hi). lia. Qed.

(** ** The invariant of reachable states *)

Lemma Inv_client h w n : Inv (client h w n).
Proof.
  constructor; unfold pc_inv, fresh, scan_inv; simpl; try done; try lia.
  split_and!; [constructor | done | by intros x ?%elem_of_nil | done].
Qed.

Lemma Reserve_step_inv l s s' : Inv s → Reserve_step l s = Some s' → Inv s'.
Proof.
  intros [Ht Hc Hw Hr Hp Hs] H.
  destruct s as [h w c t m st ts g cl sg cr pc br ws vi po ss fa].
  unfold Reserve_step in H. red_state.
  destruct l; destruct pc; simpl in *; try discriminate.
  all: repeat (case_match; simplify_eq/=; try done).
  all: repeat case_bool_decide; simplify_eq/=.
  all: destruct_hyps; simplify_eq/=.
  all: constructor; red_state; simpl; try done; try lia.
  all: try (split_and!; try done; try lia).
  all: try (rewrite ?total_app; unfold total, holds, live; simpl; lia).
  all: try (left; split_and!; try done; by eexists).
  all: try (right; by split_and!).
  all: try scan_goal.
  all: try (intros i w0 [?|[? [_ <-]%list_lookup_singleton_Some]]%lookup_app_Some; by eauto).
Qed.

Lemma quitOnSignal_step_inv a s s' : Inv s → quitOnSignal_step a s = Some s' → Inv s'.
Proof.
  intros [Ht Hc Hw Hr Hp Hs] H.
  destruct s as [h w c t m st ts g cl sg cr pc br ws vi po ss fa].
  unfold quitOnSignal_step in H. destruct g as [|g]; red_state.
  all: destruct a; destruct br; simpl in *; try discriminate.
  all: repeat (case_match; simplify_eq/=; try done).
  all: repeat case_bool_decide; simplify_eq/=.
  all: destruct_hyps; simplify_eq/=.
  all: constructor; red_state; simpl; try done; try lia.
  all: try (split_and!; try done; try lia).
Qed.

Lemma holds_mk j p r :
  holds (mkWorker j p r) =
  match p with WWork | WRelease | WPanic | WFatal => 1 | WDefer | WExited => 0 end.
Proof. done. Qed.

Lemma live_mk j p r :
  live (mkWorker j p r) =
  match p with WWork | WRelease | WDefer | WPanic => 1 | WExited | WFatal => 0 end.
Proof. done. Qed.

Lemma work_step_inv i a s s' : Inv s → work_step i a s = Some s' → Inv s'.
Proof.
  intros [Ht Hc Hw Hr Hp Hs] H.
  destruct s as [h w c t m st ts g cl sg cr pc br ws vi po ss fa].
  unfold work_step in H. destruct g as [|g]; red_state.
  all: destruct (ws !! i) as [[j p r]|] eqn:Hi; simpl in *; try discriminate.
  all: pose proof (total_insert holds ws i _ (mkWorker j WRelease r) Hi) as Hh1.
  all: pose proof (total_insert holds ws i _ (mkWorker j WDefer (S r)) Hi) as Hh2.
  all: pose proof (total_insert holds ws i _ (mkWorker j WExited r) Hi) as Hh3.
  all: pose proof (total_insert holds ws i _ (mkWorker j WPanic r) Hi) as Hh4.
  all: pose proof (total_insert holds ws i _ (mkWorker j WFatal r) Hi) as Hh5.
  all: pose proof (total_insert live ws i _ (mkWorker j WRelease r) Hi) as Hl1.
  all: pose proof (total_insert live ws i _ (mkWorker j WDefer (S r)) Hi) as Hl2.
  all: pose proof (total_insert live ws i _ (mkWorker j WExited r) Hi) as Hl3.
  all: pose proof (total_insert live ws i _ (mkWorker j WPanic r) Hi) as Hl4.
  all: pose proof (total_insert live ws i _ (mkWorker j WFatal r) Hi) as Hl5.
  all: pose proof (Hr _ _ Hi) as Hri.
  all: rewrite ?holds_mk, ?live_mk in *.
  all: destruct a; destruct p; simpl in *; try discriminate.
  all: destruct pc; simpl in *.
  all: repeat (case_match; simplify_eq/=; try done).
  all: destruct_hyps; simplify_eq/=.
  all: constructor; red_state; simpl; try done; try lia.
  all: try (split_and!; try done; try lia).
  all: try (intros i0 w0 [(_ & <- & _)|[_ ?]]%list_lookup_insert_Some;
            [rewrite holds_mk; simpl; lia | by eauto]).
Qed.

Lemma field_step_inv l s s' :
  Inv s →
  match l with
  | LSignal => s' = set_sigchan true s
  | LStop => ∃ s1 b, Stop s = Some (s1, b) ∧ s' = (if b then set_crashed true s1 else s1)
  | _ => False
  end →
  Inv s'.
Proof.
  intros [Ht Hc Hw Hr Hp Hs] H.
  destruct s as [h w c t m st ts g cl sg cr pc br ws vi po ss fa].
  red_state. destruct l; try done; destruct_hyps; simplify_eq/=.
  - by constructor.
  - destruct m; simplify_eq/=. destruct pc, st; simplify_eq/=.
    all: destruct_hyps; simplify_eq/=.
    all: constructor; red_state; simpl; try done.
    all: try (left; split_and!; try done; by eexists).
    all: try (right; by split_and!).
Qed.

Lemma step_inv l s s' : Inv s → step l s = Some s' → Inv s'.
Proof.
  intros HI H. unfold step in H. destruct (crashed s); [done|].
  destruct l; eauto using Reserve_step_inv, quitOnSignal_step_inv, work_step_inv.
  - case_bool_decide; simplify_eq. by apply (field_step_inv LSignal s).
  - apply (field_step_inv LStop s); [done|].
    destruct (Stop s) as [[s1 []]|]; simplify_eq; eauto.
Qed.

Lemma exec_inv ls s s' : Inv s → exec ls s = Some s' → Inv s'.
Proof.
  revert s. induction ls as [|l ls IH]; intros s HI H; simplify_eq/=; [done|].
  destruct (step l s) as [s1|] eqn:Hstep; [|done]. eauto using step_inv.
Qed.

Lemma reachable_inv s : reachable s → Inv s.
Proof. intros (h & w & n & ls & H). eapply exec_inv; [apply Inv_client | done]. Qed.

(** ** Progress: draining the workers and returning *)

Lemma rank_mk j p r :
  rank (mkWorker j p r) =
  match p with WWork => 3 | WRelease => 2 | WDefer => 1 | _ => 0 end.
Proof. done. Qed.

Lemma total_pos (f : worker → nat) (ws : list worker) :
  0 < total f ws → ∃ i w, ws !! i = Some w ∧ 0 < f w.
Proof.
  unfold total. induction ws as [|x ws IH]; simpl; [lia|]. intros H.
  destruct (decide (0 < f x)).
  - by exists 0, x.
  - destruct IH as (i & w & ? & ?); [lia|]. by exists (S i), w.
Qed.

Lemma worker_progress s i w :
  Inv s → crashed s = false → calm s →
  workers s !! i = Some w → 0 < rank w →
  ∃ a s', step (LWorker i a) s = Some s' ∧ same_ctl s s' ∧ calm s' ∧
          total rank (workers s') < total rank (workers s).
Proof.
  intros [Ht Hc Hw Hr Hp Hs] Hcr Hcalm Hi Hrank.
  pose proof (total_lookup_le holds _ _ _ Hi) as Hh.
  pose proof (total_lookup_le live _ _ _ Hi) as Hl.
  unfold step; rewrite Hcr. unfold work_step; rewrite Hi.
  unfold calm, same_ctl in *.
  destruct w as [j p r]. rewrite holds_mk in Hh. rewrite live_mk in Hl.
  rewrite rank_mk in Hrank.
  destruct p; simpl in *; try lia.
  - exists HReturn; eexists; split; [done|]. simpl. split_and!; try done.
    + by apply Forall_insert.
    + pose proof (total_insert rank _ _ _ (mkWorker j WRelease r) Hi) as E.
      rewrite !rank_mk in E. lia.
  - exists WNext. unfold recv_MaxControl.
    destruct (tokens s) as [|t] eqn:Et; [lia|]. simpl.
    eexists; split; [done|]. simpl. split_and!; try done.
    + by apply Forall_insert.
    + pose proof (total_insert rank _ _ _ (mkWorker j WDefer (S r)) Hi) as E.
      rewrite !rank_mk in E. lia.
  - exists WNext. unfold wg_Done.
    destruct (wg s) as [|g] eqn:Eg; [lia|]. simpl.
    eexists; split; [done|]. simpl. split_and!; try done.
    + by apply Forall_insert.
    + pose proof (total_insert rank _ _ _ (mkWorker j WExited r) Hi) as E.
      rewrite !rank_mk in E. lia.
Qed.

Lemma live_le_rank (ws : list worker) :
  Forall (λ w, panicking w = false) ws → total live ws ≤ total rank ws.
Proof.
  unfold total. induction 1 as [|[j p r] ws Hp _ IH]; simpl; [lia|].
  rewrite live_mk, rank_mk. destruct p; simpl in *; try done; lia.
Qed.

Lemma same_ctl_trans s1 s2 s3 : same_ctl s1 s2 → same_ctl s2 s3 → same_ctl s1 s3.
Proof. unfold same_ctl. intros (?&?&?&?&?&?) (?&?&?&?&?&?). split_and!; congruence. Qed.

(** Every worker whose handler returns can run to its end, whatever the
    other goroutines are doing. *)
Lemma drain n s :
  Inv s → crashed s = false → calm s → total rank (workers s) ≤ n →
  ∃ ls s', exec ls s = Some s' ∧ same_ctl s s' ∧ total live (workers s') = 0.
Proof.
  revert s. induction n as [|n IH]; intros s HI Hcr Hcalm Hn.
  - exists [], s. split_and!; try done.
    pose proof (live_le_rank _ Hcalm). lia.
  - destruct (decide (total rank (workers s) = 0)) as [Hz|Hz].
    { exists [], s. split_and!; try done. pose proof (live_le_rank _ Hcalm). lia. }
    destruct (total_pos rank (workers s)) as (i & w & Hi & Hw); [lia|].
    destruct (worker_progress s i w) as (a & s1 & Hstep & Hctl & Hcalm1 & Hlt); try done.
    destruct (IH s1) as (ls & s2 & Hexec & Hctl2 & Hzero).
    + by eapply step_inv.
    + destruct Hctl as (_&_&_&_&_&->). done.
    + done.
    + lia.
    + exists (LWorker i a :: ls), s2. simpl. rewrite Hstep. split_and!; try done.
      by eapply same_ctl_trans.
Qed.

Lemma exec_app ls1 ls2 s :
  exec (ls1 ++ ls2) s = exec ls1 s ≫= exec ls2.
Proof.
  revert s. induction ls1 as [|l ls1 IH]; intros s; simpl; [done|].
  destruct (step l s); simpl; eauto.
Qed.

(** Once Reserve has decided to return [r], and no goroutine is about to
    panic, the run can be completed: the workers drain, the bridge sees the
    closed stop channel, the join succeeds, the connection is closed and
    Reserve returns [r]. *)
Lemma can_return s r :
  Inv s → crashed s = false → calm s → bridge_quiet s →
  mainpc s = MWait (Returns r) →
  ∃ ls s', exec ls s = Some s' ∧ mainpc s' = MReturned r ∧ closed s' = true ∧
           crashed s' = false.
Proof.
  intros HI Hcr Hcalm Hq Hpc.
  destruct (drain _ s HI Hcr Hcalm (le_n _)) as (ls1 & s1 & Hex1 & Hctl & Hz).
  pose proof (exec_inv _ _ _ HI Hex1) as HI1.
  destruct Hctl as (Hpc1 & Hbr1 & Hst1 & Hmu1 & Hcl1 & Hcr1).
  rewrite Hpc in Hpc1. rewrite Hcr in Hcr1.
  assert (Hstop : stop s1 = ChClosed).
  { destruct HI1 as [_ _ _ _ Hp _]. unfold pc_inv in Hp. rewrite Hpc1 in Hp.
    by destruct Hp as [[? _] _]. }
  assert (∃ ls2 s2, exec ls2 s1 = Some s2 ∧ mainpc s2 = MWait (Returns r) ∧
            crashed s2 = false ∧ wg s2 = 0) as (ls2 & s2 & Hex2 & Hpc2 & Hcr2 & Hwg2).
  { destruct HI1 as [_ _ Hw _ _ _]. rewrite Hz in Hw.
    destruct Hq as [Hb|[Hb|Hb]]; rewrite <- Hbr1 in Hb; rewrite Hb in Hw; simpl in Hw.
    - exists [LBridge QSeeStop; LBridge QNext]. eexists. split_and!.
      + simpl. unfold step, quitOnSignal_step. rewrite Hcr1, Hb, Hstop. simpl.
        unfold wg_Done. simpl. rewrite Hw. simpl. rewrite Hcr1. done.
      + done.
      + done.
      + done.
    - exists [LBridge QNext]. eexists. split_and!.
      + simpl. unfold step, quitOnSignal_step. rewrite Hcr1, Hb. simpl.
        unfold wg_Done. rewrite Hw. simpl. done.
      + done.
      + done.
      + done.
    - exists [], s1. split_and!; try done. }
  exists (ls1 ++ ls2 ++ [LWait; LClose]). eexists. split_and!.
  - rewrite exec_app, Hex1. simpl. rewrite exec_app, Hex2. simpl.
    unfold step. rewrite Hcr2. unfold Reserve_step. rewrite Hpc2, Hwg2. simpl. rewrite Hcr2. done.
  - done.
  - done.
  - done.
Qed.

(** ** Reservation failures *)

Lemma isTimeoutOrDeadline_transient e :
  isTimeoutOrDeadline (Lib e) = true ↔ transient e.
Proof.
  unfold isTimeoutOrDeadline, transient. split.
  - destruct e as [| |msg|Op Err]; try done.
    intros [HOp HErr]%andb_true_iff. apply String.eqb_eq in HOp as ->.
    exists Err. split; [done|].
    apply orb_true_iff in HErr as [H|H]; apply bool_decide_eq_true in H; auto.
  - intros (cause & -> & [-> | ->]); done.
Qed.

Lemma step_fatal l s s' :
  step l s = Some s' →
  fatal s' = fatal s ∨ ∃ name rem, mainpc s = MReserve name rem.
Proof.
  intros H. destruct s as [h w c t m st ts g cl sg cr pc br ws vi po ss fa].
  unfold step, Reserve_step, quitOnSignal_step, work_step in H.
  destruct g as [|g]; red_state; simpl in H.
  all: repeat (case_match; simplify_eq/=; try done); eauto.
Qed.

Lemma fatal_stable ls s s' e :
  Inv s → fatal s = Some e → exec ls s = Some s' → fatal s' = Some e.
Proof.
  revert s. induction ls as [|l ls IH]; intros s HI Hf H; simplify_eq/=; [done|].
  destruct (step l s) as [s1|] eqn:Hstep; [|done].
  eapply (IH s1); [by eapply step_inv| |done].
  destruct (step_fatal _ _ _ Hstep) as [->|(name & rem & Hpc)]; [done|].
  destruct HI as [_ _ _ _ Hp _]. unfold pc_inv in Hp. rewrite Hpc in Hp.
  destruct Hp as (_ & _ & Hnone & _). congruence.
Qed.

Lemma fatal_exiting s e :
  Inv s → fatal s = Some e →
  exiting (mainpc s) = true ∧ ∀ r, mainpc s = MReturned r → r = Lib e.
Proof.
  intros [_ _ _ _ Hp _] Hf. unfold pc_inv, fresh, running, exit_inv in Hp.
  destruct (mainpc s); simpl; destruct_hyps; try congruence.
  all: split; [done|]; intros r' ?; simplify_eq.
  all: rewrite Hf in *; by destruct_hyps.
Qed.

(** A failed reservation ends the run exactly when it is not one of the
    two "nothing ready" failures of the reserve operation. When it is one,
    Reserve gives the token back and goes on scanning. Otherwise Reserve
    leaves the scan for good, any value it returns afterwards is that same
    error, and it can return it as long as the stop channel was not closed
    before and no goroutine is panicking. *)
Theorem reserve_failure_classified s name rem e :
  reachable s → crashed s = false → mainpc s = MReserve name rem →
  (isTimeoutOrDeadline (Lib e) = true ↔ transient e) ∧
  ∃ s', step (LReserved (Failed e)) s = Some s' ∧
    (exiting (mainpc s') = false ↔ transient e) ∧
    (transient e → mainpc s' = MScan rem ∧ S (tokens s') = tokens s) ∧
    (¬ transient e →
       mainpc s' = MStop e ∧
       (∀ ls s'', exec ls s' = Some s'' →
          exiting (mainpc s'') = true ∧
          ∀ r, mainpc s'' = MReturned r → r = Lib e) ∧
       (stop s = ChOpen → mu s = false → bridge s = BSelect → calm s →
          ∃ ls s'', exec ls s' = Some s'' ∧ mainpc s'' = MReturned (Lib e))).
Proof.
  intros Hreach Hcr Hpc. pose proof (reachable_inv _ Hreach) as HI.
  split; [apply isTimeoutOrDeadline_transient|].
  pose proof (isTimeoutOrDeadline_transient e) as Hcls.
  unfold step. rewrite Hcr. unfold Reserve_step. rewrite Hpc.
  destruct (isTimeoutOrDeadline (Lib e)) eqn:Htod.
  - assert (transient e) as Ht by by apply Hcls.
    destruct HI as [Htok _ _ _ _ _]. unfold main_holds in Htok. rewrite Hpc in Htok.
    unfold recv_MaxControl. destruct (tokens s) as [|t] eqn:Et; [lia|]. simpl.
    eexists. split; [done|]. simpl. split_and!; try done.
  - assert (¬ transient e) as Hnt by (intros Ht%Hcls; done).
    eexists. split; [done|]. simpl. split_and!; try done.
    intros _.
    set (s1 := set_mainpc (MStop e) (set_fatal (Some e) s)).
    assert (Inv s1) as HI1.
    { apply (step_inv (LReserved (Failed e)) s); [done|].
      unfold step. rewrite Hcr. unfold Reserve_step. by rewrite Hpc, Htod. }
    split_and!; [done| |].
    + intros ls s2 Hex. apply (fatal_exiting s2 e).
      * by eapply exec_inv.
      * by eapply fatal_stable.
    + intros Hst Hmu Hbr Hcalm.
      set (s2 := set_mainpc (MWait (Returns (Lib e))) (set_stop ChClosed s1)).
      assert (step LMainStop s1 = Some s2) as Hstep.
      { unfold step, Reserve_step, Stop. simpl. by rewrite Hcr, Hmu, Hst. }
      destruct (can_return s2 (Lib e)) as (ls & s3 & Hex & Hret & _); try done.
      * by eapply step_inv.
      * unfold bridge_quiet. simpl. auto.
      * exists (LMainStop :: ls), s3. simpl. by rewrite Hstep.
Qed.

Lemma reserve_failure_classified_witness :
  reachable reserving ∧ crashed reserving = false ∧
  mainpc reserving = MReserve "default" ∅ ∧
  ∃ s', step (LReserved (Failed eof)) reserving = Some s' ∧ mainpc s' = MStop eof.
Proof.
  assert (reachable reserving) as Hreach.
  { exists HandlerFunc, 10%Z, 1, to_reserve. vm_compute. reflexivity. }
  assert (crashed reserving = false) as Hcr by reflexivity.
  assert (mainpc reserving = MReserve "default" ∅) as Hpc by reflexivity.
  split_and!; try done.
  destruct (reserve_failure_classified _ _ _ eof Hreach Hcr Hpc)
    as (_ & s' & Hs & _ & _ & H).
  exists s'. split; [exact Hs|]. apply H.
  intros (c & Hc & [-> | ->]); discriminate Hc.
Defined.

Lemma step_unwinding l s s' :
  unwinding (mainpc s) = true → step l s = Some s' →
  unwinding (mainpc s') = true.
Proof.
  intros Hu H. destruct s as [h w c t m st ts g cl sg cr pc br ws vi po ss fa].
  unfold step, Reserve_step, quitOnSignal_step, work_step in H.
  destruct g as [|g]; red_state; simpl in *.
  all: destruct cr; [done|].
  all: destruct l as [r| | |name c0| |r| |c0| | | | |a|i a|]; simpl in *.
  all: repeat (case_match; simplify_eq/=; try done).
Qed.

(** A Reserve that a panic is unwinding never returns. *)
Lemma unwinding_never_returns ls s s' :
  unwinding (mainpc s) = true → exec ls s = Some s' →
  ∀ r, mainpc s' ≠ MReturned r.
Proof.
  revert s. induction ls as [|l ls IH]; intros s Hu H r; simplify_eq/=.
  - intros E. by rewrite E in Hu.
  - destruct (step l s) as [s1|] eqn:Hstep; [|done].
    eauto using step_unwinding.
Qed.

(** C1: a reservation fails with an error that is not a timeout after
    quitOnSignal has closed the stop channel for a signal. The failure is
    classified as fatal and Reserve goes to [c.Stop(); return err], but that
    [Stop] panics on the closed channel: Reserve never returns the error,
    its deferred calls run and the process dies. *)
Theorem fatal_failure_after_signal_panics :
  exec signal_then_fatal (client HandlerFunc 10 1) = Some signal_fired ∧
  isTimeoutOrDeadline (Lib eof) = false ∧
  fatal signal_fired = Some eof ∧
  mainpc signal_fired = MWait (Panics "close of closed channel") ∧
  (∀ ls s', exec ls signal_fired = Some s' → ∀ r, mainpc s' ≠ MReturned r) ∧
  ∃ s', exec [LBridge QNext; LWait; LClose; LUnwind] signal_fired = Some s' ∧
        mainpc s' = MFatal ∧ closed s' = true ∧ crashed s' = true.
Proof.
  split; [vm_compute; reflexivity|]. split; [reflexivity|].
  split; [reflexivity|]. split; [reflexivity|]. split.
  - intros ls s' Hex. by apply (unwinding_never_returns ls signal_fired).
  - eexists. split; [vm_compute; reflexivity|]. split_and!; reflexivity.
Qed.

(** ** What Reserve returns *)

(** Once Reserve has been entered, whatever it returns is either
    [ErrClientHasQuit], and then Reserve had received from the stop channel
    and no reservation had failed fatally, or the error of the reservation
    that failed fatally, and then Reserve had not received from the stop
    channel; the two never coincide. A pending return is carried out as
    soon as the spawned goroutines have finished. *)
Theorem Reserve_result s :
  reachable s → bridge s ≠ BNone →
  (∀ r, mainpc s = MReturned r →
     (r = ErrClientHasQuit ↔ stop_seen s = true) ∧
     (stop_seen s = true ↔ fatal s = None) ∧
     (∀ e, fatal s = Some e → r = Lib e ∧ isTimeoutOrDeadline (Lib e) = false)) ∧
  (∀ r, mainpc s = MWait (Returns r) → crashed s = false → calm s →
     bridge_quiet s →
     ∃ ls s', exec ls s = Some s' ∧ mainpc s' = MReturned r).
Proof.
  intros Hreach Hbr. pose proof (reachable_inv _ Hreach) as HI. split.
  - intros r Hpc. destruct HI as [_ _ _ _ Hp _].
    unfold pc_inv, fresh, exit_inv, quit in Hp. rewrite Hpc in Hp.
    destruct Hp as [[Hfr _]|[Hex _]]; [by destruct Hfr as (_ & ? & _)|].
    destruct Hex as [_ [_ Hf]].
    destruct (fatal s) as [e|]; destruct_hyps; simplify_eq.
    + rewrite H0. split_and!; [done|done|intros e' ?; by simplify_eq].
    + rewrite H0. split_and!; done.
  - intros r Hpc Hcr Hcalm Hq.
    destruct (can_return s r) as (ls & s' & ? & ? & _); eauto.
Qed.

Lemma Reserve_result_witness :
  reachable quitted ∧ bridge quitted ≠ BNone ∧
  mainpc quitted = MReturned ErrClientHasQuit ∧ stop_seen quitted = true.
Proof.
  assert (reachable quitted) as Hreach.
  { exists HandlerFunc, 10%Z, 1, quit_run. vm_compute. reflexivity. }
  assert (bridge quitted ≠ BNone) as Hbr by done.
  assert (mainpc quitted = MReturned ErrClientHasQuit) as Hpc by reflexivity.
  split_and!; [done|done|done|].
  destruct (Reserve_result quitted Hreach Hbr) as [H _].
  destruct (H _ Hpc) as (Hq & _). by apply Hq.
Defined.

(** C5: a caller stops the client while Reserve is inside a reservation,
    which then fails with an error that is not a timeout. The shutdown is
    caller-initiated and a fatal error occurred, yet Reserve returns
    neither [ErrClientHasQuit] nor the error: its own [Stop] panics on the
    closed channel, before Reserve has received from it, and after the
    deferred join and close the process dies. *)
Theorem stop_then_fatal_returns_neither :
  exec stop_then_fatal (client HandlerFunc 10 1) = Some stop_fired ∧
  stop stop_fired = ChClosed ∧ stop_seen stop_fired = false ∧
  fatal stop_fired = Some eof ∧
  mainpc stop_fired = MWait (Panics "close of closed channel") ∧
  (∀ ls s', exec ls stop_fired = Some s' → ∀ r, mainpc s' ≠ MReturned r) ∧
  ∃ s', exec [LBridge QSeeStop; LBridge QNext; LWait; LClose; LUnwind] stop_fired
        = Some s' ∧
        mainpc s' = MFatal ∧ closed s' = true ∧ crashed s' = true.
Proof.
  split; [vm_compute; reflexivity|]. split; [reflexivity|].
  split; [reflexivity|]. split; [reflexivity|]. split; [reflexivity|]. split.
  - intros ls s' Hex. by apply (unwinding_never_returns ls stop_fired).
  - eexists. split; [vm_compute; reflexivity|]. split_and!; reflexivity.
Qed.

(** ** Dial failure *)

(** C10. When [net.Dial] fails, ConnectAndWork returns the dial error at
    once: no handler was or will be invoked, the signal bridge is not
    spawned, the stop channel is never made or closed, and the only step
    left to the program is a [Stop] issued by some other caller. *)
Theorem dial_failure_returns h w n e :
  ∃ s', step (LDial (Some e)) (client h w n) = Some s' ∧
        mainpc s' = MReturned (Lib e) ∧
        (∀ ls s'', exec ls s' = Some s'' →
           mainpc s'' = MReturned (Lib e) ∧ workers s'' = [] ∧
           bridge s'' = BNone ∧ stop s'' = ChNil ∧ wg s'' = 0 ∧ tokens s'' = 0 ∧
           stop_seen s'' = false) ∧
        (∀ l s'', step l s' = Some s'' → l = LStop).
Proof.
  eexists. split; [reflexivity|]. split; [reflexivity|]. split.
  - set (P := λ s : state,
          mainpc s = MReturned (Lib e) ∧ workers s = [] ∧ bridge s = BNone ∧
          stop s = ChNil ∧ wg s = 0 ∧ tokens s = 0 ∧ stop_seen s = false).
    assert (∀ l s s1, P s → step l s = Some s1 → P s1) as Hstep.
    { intros l s s1 (Hpc & Hws & Hbr & Hst & Hwg & Htok & Hss) H.
      unfold step, Reserve_step, quitOnSignal_step, work_step, Stop in H.
      rewrite Hpc, Hws, Hbr, Hst in H.
      destruct (crashed s); [done|].
      destruct l as [r| | |name c| |r| |c| | | | |a|i a|];
        simplify_eq/=; try (by destruct r); try (by destruct c);
        try (by destruct a).
      destruct (mu s); simplify_eq/=. done. }
    intros ls. generalize (set_mainpc (MReturned (Lib e)) (client h w n)),
      (conj eq_refl (conj eq_refl (conj eq_refl (conj eq_refl (conj eq_refl
        (conj eq_refl eq_refl))))) : P (set_mainpc (MReturned (Lib e)) (client h w n))).
    induction ls as [|l ls IH]; intros s HP s2 Hex; simplify_eq/=; [done|].
    destruct (step l s) as [s1|] eqn:Hs; [|done]. eauto.
  - intros l s2 H. unfold step in H. simpl in H.
    destruct l as [r| | |name c| |r| |c| | | | |a|i a|];
      simplify_eq/=; try done; try (by destruct r); try (by destruct c);
      try (by destruct a).
Qed.

(** ** Shutdown order *)

Lemma closed_after_join s :
  Inv s → closed s = true →
  wg s = 0.
Proof.
  intros [_ _ _ _ Hp _] Hcl. unfold pc_inv, fresh, running in Hp.
  destruct (mainpc s) eqn:Hpc; destruct_hyps; congruence.
Qed.

Lemma joined_all_done s :
  Inv s → wg s = 0 →
  blive (bridge s) = 0 ∧ ∀ i w, workers s !! i = Some w → live w = 0.
Proof.
  intros [_ _ Hw _ _ _] Hz. rewrite Hz in Hw. split; [lia|].
  apply total_zero. lia.
Qed.

(** C4, as stated, fails: while Reserve blocks in the join on a handler
    that is still running, the connection has not been closed. *)
Lemma join_before_close :
  exec join_run (client HandlerFunc 10 1) = Some joining ∧
  mainpc joining = MWait quit ∧
  (∃ w, workers joining !! 0 = Some w ∧ w_pc w = WWork) ∧
  step LWait joining = None ∧
  closed joining = false.
Proof.
  split; [vm_compute; reflexivity|]. split; [reflexivity|].
  split; [eexists; split; reflexivity|]. split; reflexivity.
Qed.

(** C4, amended. On every exit path Reserve first joins the wait group and
    only then closes the connection: when the connection is closed, and in
    particular when Reserve has returned, the wait-group counter is zero,
    the signal bridge and every spawned worker have executed their
    [wg.Done()], so every handler has come to its end. *)
Theorem join_then_close s :
  reachable s → bridge s ≠ BNone →
  (closed s = true →
     wg s = 0 ∧ blive (bridge s) = 0 ∧
     ∀ i w, workers s !! i = Some w → live w = 0 ∧ w_pc w ≠ WWork) ∧
  (∀ r, mainpc s = MReturned r →
     closed s = true ∧
     ∀ i w, workers s !! i = Some w → live w = 0 ∧ w_pc w ≠ WWork).
Proof.
  intros Hreach Hbr. pose proof (reachable_inv _ Hreach) as HI.
  assert (wg s = 0 → ∀ i w, workers s !! i = Some w → live w = 0 ∧ w_pc w ≠ WWork)
    as Hall.
  { intros Hz i w Hi. destruct (joined_all_done s HI Hz) as [_ Hl].
    specialize (Hl _ _ Hi). split; [done|]. intros Hw. unfold live in Hl.
    by rewrite Hw in Hl. }
  split.
  - intros Hcl. pose proof (closed_after_join s HI Hcl) as Hz.
    destruct (joined_all_done s HI Hz) as [Hb _]. split_and!; [done|done|by apply Hall].
  - intros r Hpc. destruct HI as [_ _ _ _ Hp _].
    unfold pc_inv, fresh in Hp. rewrite Hpc in Hp.
    destruct Hp as [[Hfr _]|(_ & Hcl & Hz)]; [by destruct Hfr as (_ & ? & _)|].
    split; [done|by apply Hall].
Qed.

Lemma join_then_close_witness :
  reachable quitted ∧ bridge quitted ≠ BNone ∧
  mainpc quitted = MReturned ErrClientHasQuit ∧
  closed quitted = true ∧
  ∀ i w, workers quitted !! i = Some w → live w = 0 ∧ w_pc w ≠ WWork.
Proof.
  assert (reachable quitted) as Hreach.
  { exists HandlerFunc, 10%Z, 1, quit_run. vm_compute. reflexivity. }
  assert (bridge quitted ≠ BNone) as Hbr by done.
  split_and!; [done|done|reflexivity|..];
    destruct (join_then_close quitted Hreach Hbr) as [_ H];
    apply (H ErrClientHasQuit); reflexivity.
Defined.

(** ** Release of the admission token *)

(** C2, as stated, fails: when the handler panics, the deferred
    [wg.Done()] runs but the token is never received back from
    [MaxControl]. *)
Lemma panic_skips_release :
  exec panic_run (client HandlerFunc 10 1) = Some panicked ∧
  (∃ w, workers panicked !! 0 = Some w ∧ w_pc w = WFatal ∧ w_releases w = 0) ∧
  wg panicked = 1 ∧ tokens panicked = 1 ∧
  step (LWorker 0 HReturn) panicked = None ∧
  ∃ s', step (LWorker 0 WNext) panicked = Some s' ∧ crashed s' = true.
Proof.
  split; [vm_compute; reflexivity|].
  split; [eexists; split_and!; reflexivity|].
  split; [reflexivity|]. split; [reflexivity|].
  split; [reflexivity|]. eexists. split; reflexivity.
Qed.

(** C2, amended. The token of a successful reservation is held while the
    handler runs and is received back from [MaxControl] exactly once, by
    the goroutine that ran the handler, after the handler returned; that
    receive never blocks. It is an ordinary statement of [work], not a
    deferred one: a worker whose handler panicked has released nothing. *)
Theorem token_released_once s i w :
  reachable s → workers s !! i = Some w →
  w_releases w ≤ 1 ∧
  (w_pc w = WWork ∨ w_pc w = WRelease → w_releases w = 0 ∧ 1 ≤ tokens s) ∧
  (w_pc w = WDefer ∨ w_pc w = WExited → w_releases w = 1) ∧
  (w_pc w = WPanic ∨ w_pc w = WFatal → w_releases w = 0) ∧
  (w_pc w = WRelease → crashed s = false →
     ∃ s' w', step (LWorker i WNext) s = Some s' ∧ S (tokens s') = tokens s ∧
              workers s' !! i = Some w' ∧ w_pc w' = WDefer ∧ w_releases w' = 1).
Proof.
  intros Hreach Hi. destruct (reachable_inv _ Hreach) as [Ht _ _ Hr _ _].
  pose proof (Hr _ _ Hi) as Hri.
  pose proof (total_lookup_le holds _ _ _ Hi) as Hh.
  destruct w as [j p r]. rewrite holds_mk in Hri, Hh. simpl in *.
  split_and!.
  - destruct p; lia.
  - intros [-> | ->]; lia.
  - intros [-> | ->]; lia.
  - intros [-> | ->]; lia.
  - intros -> Hcr. unfold step. rewrite Hcr. unfold work_step. rewrite Hi. simpl.
    unfold recv_MaxControl. destruct (tokens s) as [|t]; [lia|]. simpl.
    eexists _, _. split_and!; try done.
    + simpl. apply list_lookup_insert_eq. by eapply lookup_lt_Some.
    + done.
    + simpl. lia.
Qed.

Lemma token_released_once_witness :
  reachable quitted ∧
  workers quitted !! 0 = Some (mkWorker (NewJob 0 "default" 1 []) WExited 1) ∧
  w_releases (mkWorker (NewJob 0 "default" 1 []) WExited 1) ≤ 1.
Proof.
  assert (reachable quitted) as Hreach.
  { exists HandlerFunc, 10%Z, 1, quit_run. vm_compute. reflexivity. }
  assert (workers quitted !! 0 = Some (mkWorker (NewJob 0 "default" 1 []) WExited 1))
    as Hi by reflexivity.
  split_and!; [done|done|].
  apply (token_released_once quitted 0 _ Hreach Hi).
Defined.

(** ** Scanning the tubes *)

(** The select of the scan never blocks: some case is ready for whichever
    tube the range yields next. *)
Lemma select_ready s name rem :
  crashed s = false → mainpc s = MScan rem → name ∈ rem →
  ∃ c s', step (LSelect name c) s = Some s' ∧ visited s' = visited s ++ [name].
Proof.
  intros Hcr Hpc Hin. unfold step. rewrite Hcr. unfold Reserve_step. rewrite Hpc.
  rewrite bool_decide_eq_true_2 by done.
  destruct (decide (tokens s < cap s)) as [Hlt|Hge].
  - exists CaseSend. rewrite bool_decide_eq_true_2 by done. by eexists.
  - destruct (decide (stop s = ChClosed)) as [Hst|Hst].
    + exists CaseStop. rewrite bool_decide_eq_true_2 by done. by eexists.
    + exists CaseDefault. rewrite !bool_decide_eq_false_2 by done. by eexists.
Qed.

Lemma NoDup_length_le_size (l : list string) (X : gset string) :
  NoDup l → (∀ x, x ∈ l → x ∈ X) → length l ≤ size X.
Proof.
  intros Hnd Hsub. rewrite <- (size_list_to_set (C := gset string) l Hnd).
  apply subseteq_size. set_solver.
Qed.

(** C9. Within one scan Reserve calls [tube.Reserve] at most once per tube:
    the tubes polled so far are pairwise distinct tubes of the table, so at
    most as many as there are tubes, whatever the capacity. The token is
    requested without blocking: some case of the select is always ready,
    and when [MaxControl] is full and the stop channel is not closed the
    only ready case is [default], which moves on to the next tube without a
    reservation. *)
Theorem scan_polls_each_tube_once s :
  reachable s →
  NoDup (polled s) ∧
  (∀ x, x ∈ polled s → x ∈ dom (tubeset s)) ∧
  length (polled s) ≤ size (dom (tubeset s)) ∧
  (∀ name rem, mainpc s = MScan rem → name ∈ rem → crashed s = false →
     (name ∉ visited s) ∧
     (∃ c s', step (LSelect name c) s = Some s') ∧
     (tokens s = cap s → stop s ≠ ChClosed →
        step (LSelect name CaseSend) s = None ∧
        step (LSelect name CaseStop) s = None ∧
        ∃ s', step (LSelect name CaseDefault) s = Some s' ∧
              mainpc s' = MScan (rem ∖ {[ name ]}) ∧
              tokens s' = tokens s ∧ polled s' = polled s ∧ wg s' = wg s)).
Proof.
  intros Hreach. destruct (reachable_inv _ Hreach) as [_ _ _ _ _ Hs].
  destruct Hs as (Hnd & Hsub & Hdom & Hrem).
  assert (NoDup (polled s)) as Hndp by by eapply sublist_NoDup.
  assert (∀ x, x ∈ polled s → x ∈ dom (tubeset s)) as Hpd.
  { intros x Hx. apply Hdom. by apply (sublist_subseteq _ _ Hsub). }
  split_and!; [done|done|by apply NoDup_length_le_size|].
  intros name rem Hpc Hin Hcr. rewrite Hpc in Hrem. split_and!.
  - by apply Hrem.
  - destruct (select_ready s name rem) as (c & s' & ? & _); eauto.
  - intros Hfull Hst. unfold step. rewrite Hcr. unfold Reserve_step. rewrite Hpc.
    rewrite bool_decide_eq_true_2 by done.
    rewrite (bool_decide_eq_false_2 (tokens s < cap s)) by lia.
    rewrite (bool_decide_eq_false_2 (stop s = ChClosed)) by done.
    simpl. split_and!; try done. by eexists.
Qed.

Lemma scan_polls_each_tube_once_witness :
  reachable scanned_ab ∧ NoDup (polled scanned_ab) ∧
  length (polled scanned_ab) ≤ size (dom (tubeset scanned_ab)).
Proof.
  assert (reachable scanned_ab) as Hreach.
  { exists (WorkMux ["a"; "b"]), 10%Z, 2, scan_ab. vm_compute. reflexivity. }
  destruct (scan_polls_each_tube_once scanned_ab Hreach) as (H1 & _ & H2 & _).
  done.
Defined.

(** C8, as stated, fails: two executions over the same router visit the
    tubes in different orders, and the second one not in the order in
    which the names were inserted. *)
Lemma scan_order_not_fixed :
  exec scan_ab (client (WorkMux ["a"; "b"]) 10 2) = Some scanned_ab ∧
  exec scan_ba (client (WorkMux ["a"; "b"]) 10 2) = Some scanned_ba ∧
  mainpc scanned_ab = MIdle ∧ mainpc scanned_ba = MIdle ∧
  visited scanned_ab = ["a"; "b"] ∧ visited scanned_ba = ["b"; "a"] ∧
  polled scanned_ab = ["a"; "b"] ∧ polled scanned_ba = ["b"; "a"].
Proof. split_and!; vm_compute; reflexivity. Qed.

(** C8, amended. Within one scan no tube is visited twice and only tubes
    of the table are visited; a scan that runs to its end has visited every
    tube exactly once. The order is that of the iteration over the Go map
    [tubes]: at each point of the scan any tube not yet visited may be the
    next one. *)
Theorem scan_visits_each_tube_once s :
  reachable s →
  NoDup (visited s) ∧
  (∀ x, x ∈ visited s → x ∈ dom (tubeset s)) ∧
  (mainpc s = MIdle → visited s ≡ₚ elements (dom (tubeset s))) ∧
  (∀ rem, mainpc s = MScan rem → crashed s = false →
     ∀ name, name ∈ dom (tubeset s) → name ∉ visited s →
       ∃ c s', step (LSelect name c) s = Some s' ∧
               visited s' = visited s ++ [name]).
Proof.
  intros Hreach. destruct (reachable_inv _ Hreach) as [_ _ _ _ _ Hs].
  destruct Hs as (Hnd & Hsub & Hdom & Hrem). split_and!; try done.
  - intros Hpc. rewrite Hpc in Hrem. apply NoDup_Permutation; [done|apply NoDup_elements|].
    intros x. rewrite elem_of_elements. split; auto.
  - intros rem Hpc Hcr name Hin Hnv. rewrite Hpc in Hrem.
    apply (select_ready s name rem); try done. by apply Hrem.
Qed.

Lemma scan_visits_each_tube_once_witness :
  reachable scanned_ba ∧ mainpc scanned_ba = MIdle ∧
  visited scanned_ba ≡ₚ elements (dom (tubeset scanned_ba)).
Proof.
  assert (reachable scanned_ba) as Hreach.
  { exists (WorkMux ["a"; "b"]), 10%Z, 2, scan_ba. vm_compute. reflexivity. }
  assert (mainpc scanned_ba = MIdle) as Hpc by reflexivity.
  split_and!; [done|done|].
  by apply (scan_visits_each_tube_once scanned_ba Hreach).
Defined.

(** ** The tube table *)

Lemma foldl_tubes_lookup conn (names : list string) (m : gmap string TubeSet) name :
  foldl (λ m name, <[ name := NewTubeSet conn name ]> m) m names !! name =
  if bool_decide (name ∈ names) then Some (NewTubeSet conn name) else m !! name.
Proof.
  revert m. induction names as [|x names IH]; intros m; simpl; [done|].
  rewrite IH. destruct (decide (name ∈ names)) as [Hin|Hin].
  - rewrite !bool_decide_eq_true_2; [done|set_solver|done].
  - rewrite (bool_decide_eq_false_2 (name ∈ names)) by done.
    destruct (decide (x = name)) as [->|Hne].
    + rewrite bool_decide_eq_true_2 by set_solver. by rewrite lookup_insert_eq.
    + rewrite bool_decide_eq_false_2 by set_solver. by rewrite lookup_insert_ne.
Qed.

Lemma tubes_lookup h conn name :
  tubes h conn !! name =
  if bool_decide (name ∈ tube_names h) then Some (NewTubeSet conn name) else None.
Proof. unfold tubes. by rewrite foldl_tubes_lookup, lookup_empty. Qed.

(** C7, as stated, fails: a router with no tube gets no queue reader at
    all, not a reader of the tube "default". *)
Lemma empty_router_has_no_default :
  tubes (WorkMux []) 0 = ∅ ∧ tubes (WorkMux []) 0 !! "default" = None ∧
  tubes (WorkMux []) 0 ≠ {[ "default" := NewTubeSet 0 "default" ]}.
Proof.
  split; [reflexivity|]. split; [reflexivity|].
  intros H. apply (f_equal (λ m : gmap string TubeSet, m !! "default")) in H.
  by rewrite lookup_singleton_eq in H.
Qed.

(** C7, amended. For a router the table has exactly one queue reader per
    tube name of the router, reading that tube only, and nothing else: for a
    router without tubes the table is empty. Only for a handler that is not
    a router is the table the single reader of "default". *)
Theorem tubes_one_reader_per_name conn :
  (∀ ts name,
     tubes (WorkMux ts) conn !! name =
     if bool_decide (name ∈ ts) then Some (mkTubeSet conn {[ name ]}) else None) ∧
  (∀ ts, dom (tubes (WorkMux ts) conn) = list_to_set ts) ∧
  tubes (WorkMux []) conn = ∅ ∧
  tubes HandlerFunc conn = {[ "default" := mkTubeSet conn {[ "default" ]} ]}.
Proof.
  split_and!.
  - intros ts name. apply tubes_lookup.
  - intros ts. apply set_eq. intros name.
    rewrite elem_of_dom, tubes_lookup, elem_of_list_to_set. simpl.
    case_bool_decide; split; try done.
  - done.
  - done.
Qed.

(** ** Token conservation *)

Lemma tokens_bounded s : reachable s → tokens s ≤ cap s.
Proof. intros H. by destruct (reachable_inv _ H). Qed.




(** C3: on the exit caused by a fatal reservation error the token taken
    for that reservation stays in [MaxControl] after everything has
    drained. *)
Theorem fatal_exit_leaks_token :
  exec fatal_run (client HandlerFunc 0 1) = Some failed ∧
  mainpc failed = MReturned (Lib eof) ∧
  closed failed = true ∧ wg failed = 0 ∧ workers failed = [] ∧
  bridge failed = BExited ∧
  cap failed = 1 ∧ tokens failed = 1.
Proof. split_and!; vm_compute; reflexivity. Qed.

(** ** Stop *)

(** A second [Stop] on the same stop channel panics, and leaves [mu]
    locked. *)
Lemma Stop_twice s s1 :
  Stop s = Some (s1, false) → Stop s1 = Some (set_mu true s1, true).
Proof.
  unfold Stop. destruct (mu s) eqn:Hmu; [done|].
  destruct (stop s) eqn:Hst; intros ?; simplify_eq/=. by rewrite Hmu.
Qed.

(** C6: the second [Stop] panics with a close of the closed channel. It
    takes no misuse by a caller: a signal and a fatal reservation error
    make the engine itself call [Stop] twice, and Reserve panics instead
    of returning the error. *)
Theorem second_Stop_panics :
  (∃ s, exec stop_twice (client HandlerFunc 10 1) = Some s ∧
        crashed s = true ∧ mu s = true ∧ stop s = ChClosed) ∧
  (∃ s, exec signal_then_fatal (client HandlerFunc 10 1) = Some s ∧
        mainpc s = MWait (Panics "close of closed channel") ∧
        mu s = true ∧ fatal s = Some eof) ∧
  (∃ s, exec [LStop] (client HandlerFunc 10 1) = Some s ∧ crashed s = true).
Proof. split_and!; eexists; split_and!; vm_compute; reflexivity. Qed.

(** * Further properties *)

(** ** Further invariants *)

Lemma Inv2_client h w n : Inv2 (client h w n).
Proof. constructor; simpl; try done. Qed.

Lemma step_inv2 l s s' : Inv s → Inv2 s → step l s = Some s' → Inv2 s'.
Proof.
  intros [Ht Hc Hw Hr Hp Hs] [Htab Hjobs Hres Hbr] H.
  destruct s as [h w c t m st ts g cl sg cr pc br ws vi po ss fa].
  unfold step, Reserve_step, quitOnSignal_step, work_step in H.
  destruct g as [|g]; red_state; simpl in *.
  all: destruct cr; [done|].
  all: destruct l as [r| | |name c0| |r| |c0| | | | |a|i a|]; simpl in *.
  all: try (destruct (ws !! i) as [[j p r]|] eqn:Hi; [|done];
            pose proof (proj1 (Forall_lookup _ _) Hjobs _ _ Hi) as Hj; simpl in Hj).
  all: repeat (case_match; simplify_eq/=; try done).
  all: repeat case_bool_decide; simplify_eq/=.
  all: destruct_hyps; simplify_eq/=.
  all: constructor; simpl; try done.
  all: try (by apply Forall_insert).
  all: try (by intros; simplify_eq).
  all: try (match goal with H : ∀ x, x ∈ _ ↔ _ |- _ ∈ _ => by apply H end).
  all: try (apply Forall_app; split; [done|]; by repeat constructor).
Qed.

Lemma step_const l s s' :
  step l s = Some s' →
  Handler_ s' = Handler_ s ∧ wait s' = wait s ∧ cap s' = cap s.
Proof.
  intros H. destruct s as [h w c t m st ts g cl sg cr pc br ws vi po ss fa].
  unfold step, Reserve_step, quitOnSignal_step, work_step in H.
  destruct g as [|g]; red_state; simpl in H.
  all: repeat (case_match; simplify_eq/=; try done).
Qed.

Lemma exec_client_inv ls h w n s :
  exec ls (client h w n) = Some s →
  Inv s ∧ Inv2 s ∧ Handler_ s = h ∧ wait s = w ∧ cap s = n.
Proof.
  assert (∀ s0, Inv s0 → Inv2 s0 → exec ls s0 = Some s →
            Inv s ∧ Inv2 s ∧ Handler_ s = Handler_ s0 ∧ wait s = wait s0 ∧
            cap s = cap s0) as Hgen.
  { induction ls as [|l ls IH]; intros s0 HI HI2 H; simplify_eq/=; [done|].
    destruct (step l s0) as [s1|] eqn:Hstep; [|done].
    destruct (step_const _ _ _ Hstep) as (Eh & Ew & Ec).
    destruct (IH s1) as (? & ? & ? & ? & ?); eauto using step_inv, step_inv2.
    split_and!; [done|done|congruence..]. }
  intros H. apply (Hgen (client h w n)); auto using Inv_client, Inv2_client.
Qed.

Lemma total_mono (f g : worker → nat) (ws : list worker) :
  (∀ w, f w ≤ g w) → total f ws ≤ total g ws.
Proof.
  intros Hfg. unfold total. induction ws as [|x ws IH]; simpl; [lia|].
  specialize (Hfg x). lia.
Qed.

Lemma dom_tubes h conn : dom (tubes h conn) = list_to_set (tube_names h).
Proof.
  apply set_eq. intros name.
  rewrite elem_of_dom, tubes_lookup, elem_of_list_to_set.
  case_bool_decide; split; try done.
Qed.

(** At no moment do more handlers run than [MaxControl] has room for: the
    handlers at work, together with a reservation in flight, never exceed
    the capacity. *)
Theorem handlers_bounded s :
  reachable s →
  total at_work (workers s) + main_holds s ≤ cap s.
Proof.
  intros Hreach. destruct (reachable_inv _ Hreach) as [Ht Hc _ _ _ _].
  assert (total at_work (workers s) ≤ total holds (workers s)); [|lia].
  apply total_mono. intros [j p r]. unfold at_work. rewrite holds_mk. simpl.
  destruct p; lia.
Qed.

Lemma handlers_bounded_witness :
  reachable joining ∧ total at_work (workers joining) = 1 ∧ cap joining = 1 ∧
  total at_work (workers joining) + main_holds joining ≤ cap joining.
Proof.
  assert (reachable joining) as Hreach.
  { exists HandlerFunc, 10%Z, 1, join_run. vm_compute. reflexivity. }
  split_and!; [done|reflexivity|reflexivity|].
  apply (handlers_bounded joining Hreach).
Defined.

(** Every job handed to a handler was reserved from a tube of the table:
    a tube the router names, or "default" for a plain handler; and it
    carries the connection of the run. *)
Theorem jobs_from_table ls h w n s i wk :
  exec ls (client h w n) = Some s → workers s !! i = Some wk →
  job_Tube (w_job wk) ∈ tube_names h ∧ job_conn (w_job wk) = 0.
Proof.
  intros Hex Hi. destruct (exec_client_inv _ _ _ _ _ Hex) as (_ & HI2 & Hh & _).
  destruct HI2 as [Htab Hjobs _ _].
  destruct (proj1 (Forall_lookup _ _) Hjobs _ _ Hi) as [Hin Hc]. split; [|done].
  destruct (bridge s); rewrite Htab in Hin; try (by rewrite dom_empty_L in Hin);
    rewrite dom_tubes, Hh in Hin; by apply elem_of_list_to_set in Hin.
Qed.

Lemma jobs_from_table_witness :
  exec scan_job (client (WorkMux ["a"; "b"]) 10 2) = Some scanned_job ∧
  workers scanned_job !! 0 = Some (mkWorker (NewJob 0 "b" 7 []) WWork 0) ∧
  "b" ∈ ["a"; "b"].
Proof.
  assert (exec scan_job (client (WorkMux ["a"; "b"]) 10 2) = Some scanned_job)
    as Hex by (vm_compute; reflexivity).
  assert (workers scanned_job !! 0 = Some (mkWorker (NewJob 0 "b" 7 []) WWork 0))
    as Hi by reflexivity.
  split_and!; [done|done|].
  apply (jobs_from_table _ _ _ _ _ _ _ Hex Hi).
Defined.

(** quitOnSignal leaves its select, and so returns, only once the stop
    channel is closed; and when Reserve has returned from its loop the stop
    channel is closed and quitOnSignal has executed its [wg.Done()]. *)
Theorem bridge_leaves_after_stop s :
  reachable s →
  (bridge_left (bridge s) = true → stop s = ChClosed) ∧
  (∀ r, mainpc s = MReturned r → bridge s ≠ BNone →
     stop s = ChClosed ∧ (bridge s = BExited ∨ bridge s = BFatal)).
Proof.
  intros (h & w & n & ls & Hex).
  destruct (exec_client_inv _ _ _ _ _ Hex) as (HI & HI2 & _).
  split; [by destruct HI2|].
  intros r Hpc Hbr. destruct HI as [_ _ Hw _ Hp _].
  unfold pc_inv, fresh, exit_inv in Hp. rewrite Hpc in Hp.
  destruct Hp as [[Hfr _]|((Hst & _) & _ & Hz)]; [by destruct Hfr as (_ & ? & _)|].
  split; [done|]. rewrite Hz in Hw. destruct (bridge s); simpl in Hw; try lia; try done; auto.
Qed.

Lemma bridge_leaves_after_stop_witness :
  reachable quitted ∧ bridge_left (bridge quitted) = true ∧ stop quitted = ChClosed.
Proof.
  assert (reachable quitted) as Hreach.
  { exists HandlerFunc, 10%Z, 1, quit_run. vm_compute. reflexivity. }
  split_and!; [done|reflexivity|].
  by apply (bridge_leaves_after_stop quitted Hreach).
Defined.

(** ** Degenerate configurations *)

Lemma step_idle l s s' :
  idle_inv s → step l s = Some s' → idle_inv s'.
Proof.
  intros (Hcfg & Hws & Hvi & Hpo & Htok & Hpc) H.
  destruct s as [h w c t m st ts g cl sg cr pc br ws vi po ss fa].
  unfold step, Reserve_step, quitOnSignal_step, work_step in H.
  unfold idle_inv in *. destruct g as [|g]; red_state; simpl in *; subst.
  all: destruct cr; [done|].
  all: destruct l as [r| | |name c0| |r| |c0| | | | |a|i a|]; simpl in *.
  all: repeat (case_match; simplify_eq/=; try done).
  all: repeat case_bool_decide; simplify_eq/=.
  all: destruct_hyps; simplify_eq/=; try lia.
  all: try (split_and!; try done; auto).
  all: try set_solver.
Qed.

Lemma exec_idle ls s s' : idle_inv s → exec ls s = Some s' → idle_inv s'.
Proof.
  revert s. induction ls as [|l ls IH]; intros s HI H; simplify_eq/=; [done|].
  destruct (step l s) as [s1|] eqn:Hstep; [|done]. eauto using step_idle.
Qed.

(** A client whose [MaxControl] has capacity zero (or is nil, as in a
    client literal that leaves it out) never gets a token: it never calls
    [tube.Reserve] and never invokes the handler, whatever the tubes hold. *)
Theorem zero_capacity_never_reserves ls h w s :
  exec ls (client h w 0) = Some s →
  workers s = [] ∧ polled s = [] ∧ tokens s = 0.
Proof.
  intros H. destruct (exec_idle ls (client h w 0) s) as (_ & ? & _ & ? & ? & _);
    [|done|done].
  unfold idle_inv; simpl. split_and!; auto.
Qed.

Lemma zero_capacity_never_reserves_witness :
  exec scan_nocap (client HandlerFunc 10 0) = Some scanned_nocap ∧
  visited scanned_nocap = ["default"] ∧ polled scanned_nocap = [].
Proof.
  assert (exec scan_nocap (client HandlerFunc 10 0) = Some scanned_nocap)
    as Hex by (vm_compute; reflexivity).
  split_and!; [done|reflexivity|].
  apply (zero_capacity_never_reserves _ _ _ _ Hex).
Defined.

(** A router that names no tube makes Reserve scan an empty table: it
    never calls [tube.Reserve], never invokes a handler and never takes a
    token, for any capacity; it only idles until it is stopped. *)
Theorem empty_router_never_reserves ls w n s :
  exec ls (client (WorkMux []) w n) = Some s →
  workers s = [] ∧ polled s = [] ∧ tokens s = 0 ∧
  ∀ rem, mainpc s = MScan rem → n ≠ 0 → rem = ∅.
Proof.
  intros H.
  destruct (exec_client_inv _ _ _ _ _ H) as (_ & _ & _ & _ & Hcap).
  destruct (exec_idle ls (client (WorkMux []) w n) s) as (_ & ? & _ & ? & ? & Hpc);
    [|done|].
  { unfold idle_inv; simpl. split_and!; auto. }
  split_and!; try done. intros rem Hrem Hn. rewrite Hrem in Hpc.
  by destruct Hpc as [?|?]; [congruence|].
Qed.

Lemma empty_router_never_reserves_witness :
  exec scan_notube (client (WorkMux []) 10 3) = Some scanned_notube ∧
  mainpc scanned_notube = MScan ∅ ∧ workers scanned_notube = [].
Proof.
  assert (exec scan_notube (client (WorkMux []) 10 3) = Some scanned_notube)
    as Hex by (vm_compute; reflexivity).
  split_and!; [done|reflexivity|].
  apply (empty_router_never_reserves _ _ _ _ Hex).
Defined.

(** ** What ends the process *)

(** The process dies only at the end of a panic: of an outside [Stop], of
    the [Stop] in Reserve or in quitOnSignal, or of a handler. In
    particular no [wg.Done()] ever makes the wait-group counter negative. *)
Theorem crash_causes l s s' :
  reachable s → step l s = Some s' → crashed s' = true →
  l = LStop ∨
  (l = LUnwind ∧ mainpc s = MFatal) ∨
  (l = LBridge QNext ∧ bridge s = BFatal) ∨
  (∃ i w, l = LWorker i WNext ∧ workers s !! i = Some w ∧ w_pc w = WFatal).
Proof.
  intros Hreach H. destruct (reachable_inv _ Hreach) as [_ _ Hw _ _ _].
  clear Hreach. revert H.
  destruct s as [h w c t m st ts g cl sg cr pc br ws vi po ss fa].
  unfold step, Reserve_step, quitOnSignal_step, work_step.
  destruct g as [|g]; red_state; simpl in *.
  all: destruct cr; [done|].
  all: destruct l as [r| | |name c0| |r| |c0| | | | |a|i a|]; simpl; auto.
  all: try (destruct (ws !! i) as [[j p r]|] eqn:Hi; [|done];
            pose proof (total_lookup_le live _ _ _ Hi) as Hl;
            rewrite live_mk in Hl).
  all: repeat (case_match; simplify_eq/=; try done).
  all: intros ? ?; simplify_eq/=; try lia; eauto 10.
Qed.

Lemma crash_causes_witness :
  reachable panicked ∧
  step (LWorker 0 WNext) panicked = Some (set_crashed true panicked) ∧
  ∃ w, workers panicked !! 0 = Some w ∧ w_pc w = WFatal.
Proof.
  assert (reachable panicked) as Hreach.
  { exists HandlerFunc, 10%Z, 1, panic_run. vm_compute. reflexivity. }
  assert (step (LWorker 0 WNext) panicked = Some (set_crashed true panicked))
    as Hstep by reflexivity.
  split_and!; [done|done|].
  destruct (crash_causes _ _ _ Hreach Hstep eq_refl)
    as [?|[[? _]|[[? _]|(i & w & Hl & Hi & Hw)]]]; try discriminate.
  injection Hl as <-. eauto.
Defined.

(** ** Stop, twice *)

(** [Stop] is one-shot. A call that finds the channel open closes it and
    unlocks, and the next call then panics. A call that panics (the channel
    closed already, or not made yet) changes nothing but leaves [mu]
    locked, so that every later call blocks. *)
Theorem Stop_is_one_shot s s1 b :
  Stop s = Some (s1, b) →
  if b then stop s ≠ ChOpen ∧ s1 = set_mu true s ∧ Stop s1 = None
  else stop s = ChOpen ∧ s1 = set_stop ChClosed s ∧
       Stop s1 = Some (set_mu true s1, true).
Proof.
  unfold Stop. destruct (mu s) eqn:Hmu; [done|].
  destruct (stop s) eqn:Hst; intros ?; simplify_eq/=; rewrite ?Hmu; done.
Qed.

Lemma Stop_is_one_shot_witness :
  Stop entered = Some (set_stop ChClosed entered, false) ∧
  Stop (set_stop ChClosed entered)
  = Some (set_mu true (set_stop ChClosed entered), true).
Proof.
  assert (Stop entered = Some (set_stop ChClosed entered, false)) as H
    by reflexivity.
  split; [done|]. apply (Stop_is_one_shot _ _ _ H).
Defined.

(** ** The tube table depends on the set of names *)

(** The table [tubes] builds depends only on which names the router
    exposes, not on their order or on repetitions, and has at most as many
    readers as there are names. *)
Theorem tubes_of_name_set ts1 ts2 conn :
  (∀ name, name ∈ ts1 ↔ name ∈ ts2) →
  tubes (WorkMux ts1) conn = tubes (WorkMux ts2) conn ∧
  size (tubes (WorkMux ts1) conn) ≤ length ts2.
Proof.
  intros Heq. assert (tubes (WorkMux ts1) conn = tubes (WorkMux ts2) conn) as E.
  { apply map_eq. intros name. rewrite !tubes_lookup. simpl.
    by rewrite (bool_decide_ext _ _ (Heq name)). }
  split; [done|]. rewrite E, <- size_dom, dom_tubes. simpl.
  clear. induction ts2 as [|x ts2 IH].
  - rewrite list_to_set_nil, size_empty. done.
  - rewrite list_to_set_cons, size_union_alt, size_singleton. simpl.
    assert (size (list_to_set ts2 ∖ {[x]} : gset string) ≤ size (list_to_set ts2 : gset string))
      by (apply subseteq_size; set_solver).
    lia.
Qed.

Lemma tubes_of_name_set_witness :
  tubes (WorkMux ["a"; "b"; "a"]) 0 = tubes (WorkMux ["b"; "a"]) 0 ∧
  size (tubes (WorkMux ["a"; "b"; "a"]) 0) ≤ 2.
Proof.
  apply (tubes_of_name_set ["a"; "b"; "a"] ["b"; "a"] 0).
  intros name. rewrite !elem_of_cons, !elem_of_nil. tauto.
Defined.

(** ** A poll that finds nothing *)

(** Polling a tube that has no job ready is neutral: Reserve takes a token,
    the reservation fails with a timeout or a deadline, Reserve gives the
    token back, and only the position of the scan has changed. *)
Theorem empty_poll_is_neutral s name rem e :
  crashed s = false → mainpc s = MScan rem → name ∈ rem →
  tokens s < cap s → transient e →
  ∃ s1 s2,
    step (LSelect name CaseSend) s = Some s1 ∧
    step (LReserved (Failed e)) s1 = Some s2 ∧
    s2 = set_mainpc (MScan (rem ∖ {[ name ]}))
           (set_polled (polled s ++ [name])
           (set_visited (visited s ++ [name]) s)).
Proof.
  intros Hcr Hpc Hin Hlt Htr. apply isTimeoutOrDeadline_transient in Htr.
  destruct s as [h w c t m st ts g cl sg cr pc br ws vi po ss fa].
  simpl in *. subst. unfold step, Reserve_step. simpl.
  rewrite !bool_decide_eq_true_2 by done. eexists _, _. split; [done|].
  simpl. rewrite Htr. simpl. done.
Qed.

Lemma empty_poll_is_neutral_witness :
  crashed scanning = false ∧ tokens scanning < cap scanning ∧
  ∃ s2, exec [LSelect "default" CaseSend; LReserved (Failed timeout)] scanning
        = Some s2 ∧
        tokens s2 = tokens scanning ∧ wg s2 = wg scanning.
Proof.
  assert (crashed scanning = false) as Hcr by reflexivity.
  assert (mainpc scanning = MScan {[ "default" ]}) as Hpc by reflexivity.
  assert ("default" ∈ ({[ "default" ]} : gset string)) as Hin by set_solver.
  assert (tokens scanning < cap scanning) as Hlt by (vm_compute; lia).
  assert (transient timeout) as Htr by (eexists; split; [reflexivity|auto]).
  split_and!; [done|done|].
  destruct (empty_poll_is_neutral _ _ _ _ Hcr Hpc Hin Hlt Htr)
    as (s1 & s2 & H1 & H2 & ->).
  eexists. split; [simpl; rewrite H1; simpl; rewrite H2; reflexivity|]. done.
Defined.

(** ** Tokens left after a return *)


(** ** Runs with a single source of stop *)

Lemma step_alone l s s' :
  Inv s → alone_inv s → engine_only l = true → step l s = Some s' →
  alone_inv s'.
Proof.
  intros [_ _ Hw _ Hp _] (Hcr & Hmu & Hsg & Hss & Hcalm & Hbr & Hpc) Hl H.
  destruct s as [h w c t m st ts g cl sg cr pc br ws vi po ss fa].
  unfold step, Reserve_step, quitOnSignal_step, work_step in H.
  unfold alone_inv, calm in *.
  destruct g as [|g]; red_state; simpl in *; subst.
  all: destruct l as [r| | |name c0| |r| |c0| | | | |a|i a|]; simpl in *; try done.
  all: try (destruct (ws !! i) as [[j p r]|] eqn:Hi; [|done];
            pose proof (total_lookup_le live _ _ _ Hi) as Hlv;
            rewrite live_mk in Hlv;
            pose proof (proj1 (Forall_lookup _ _) Hcalm _ _ Hi) as Hpn;
            unfold panicking in Hpn; simpl in Hpn).
  all: repeat (case_match; simplify_eq/=; try done).
  all: repeat case_bool_decide; simplify_eq/=.
  all: destruct_hyps; simplify_eq/=; try lia.
  all: split_and!; try done.
  all: try (by apply Forall_insert).
  all: try (apply Forall_app; split; [done|]; by repeat constructor).
Qed.

Lemma step_signalled l s s' :
  Inv s → signalled_inv s → signal_only l = true → step l s = Some s' →
  signalled_inv s'.
Proof.
  intros [_ _ Hw _ Hp _] (Hcr & Hmu & Hfa & Hcalm & Hbr & Hpc) Hl H.
  destruct s as [h w c t m st ts g cl sg cr pc br ws vi po ss fa].
  unfold step, Reserve_step, quitOnSignal_step, work_step in H.
  unfold signalled_inv, calm in *.
  destruct g as [|g]; red_state; simpl in *; subst.
  all: destruct l as [r| | |name c0| |r| |c0| | | | |a|i a|]; simpl in *; try done.
  all: try (destruct (ws !! i) as [[j p r]|] eqn:Hi; [|done];
            pose proof (total_lookup_le live _ _ _ Hi) as Hlv;
            rewrite live_mk in Hlv;
            pose proof (proj1 (Forall_lookup _ _) Hcalm _ _ Hi) as Hpn;
            unfold panicking in Hpn; simpl in Hpn).
  all: repeat (case_match; simplify_eq/=; try done).
  all: repeat case_bool_decide; simplify_eq/=.
  all: destruct_hyps; simplify_eq/=; try lia.
  all: split_and!; try done; auto.
  all: try (by apply Forall_insert).
  all: try (apply Forall_app; split; [done|]; by repeat constructor).
Qed.

Lemma exec_with (P : state → Prop) (ok : label → bool) ls s s' :
  (∀ l s s', Inv s → P s → ok l = true → step l s = Some s' → P s') →
  Inv s → P s → forallb ok ls = true → exec ls s = Some s' → P s'.
Proof.
  intros Hstep. revert s.
  induction ls as [|l ls IH]; intros s HI HP Hok H; simplify_eq/=; [done|].
  apply andb_true_iff in Hok as [Hl Hok].
  destruct (step l s) as [s1|] eqn:Hs; [|done].
  eapply (IH s1); eauto using step_inv.
Qed.

(** Left alone (no signal, no [Stop] from outside, no panic in a handler)
    the engine never panics and never dies, [mu] is never left locked, and
    Reserve never quits by itself: all it ever returns is the dial error or
    a fatal reservation error. *)
Theorem engine_alone_never_quits ls h w n s :
  forallb engine_only ls = true → exec ls (client h w n) = Some s →
  crashed s = false ∧ mu s = false ∧ stop_seen s = false ∧
  mainpc s ≠ MFatal ∧
  (∀ msg, mainpc s ≠ MWait (Panics msg)) ∧
  (∀ r, mainpc s = MReturned r → ∃ e, r = Lib e).
Proof.
  intros Hok Hex.
  assert (alone_inv s) as (Hcr & Hmu & _ & Hss & _ & _ & Hpc).
  { apply (exec_with alone_inv engine_only ls (client h w n)); try done.
    - apply step_alone.
    - apply Inv_client.
    - unfold alone_inv, calm; simpl. split_and!; try done. }
  split_and!; try done.
  - intros E. by rewrite E in Hpc.
  - intros msg E. by rewrite E in Hpc.
  - intros r E. rewrite E in Hpc. destruct r; [done|]. by eexists.
Qed.

Lemma engine_alone_never_quits_witness :
  forallb engine_only fatal_run = true ∧
  exec fatal_run (client HandlerFunc 0 1) = Some failed ∧
  crashed failed = false ∧ stop_seen failed = false.
Proof.
  assert (forallb engine_only fatal_run = true) as Hok by reflexivity.
  assert (exec fatal_run (client HandlerFunc 0 1) = Some failed) as Hex
    by (vm_compute; reflexivity).
  destruct (engine_alone_never_quits _ _ _ _ _ Hok Hex) as (Hcr & _ & Hss & _).
  split_and!; [done|done|exact Hcr|exact Hss].
Defined.

(** When nobody calls [Stop] from outside, no handler panics and no
    reservation fails fatally, signals cannot make the engine panic,
    however many arrive: quitOnSignal closes the stop channel at most once,
    and whenever Reserve returns from its loop it returns
    [ErrClientHasQuit]. *)
Theorem signal_stop_is_clean ls h w n s :
  forallb signal_only ls = true → exec ls (client h w n) = Some s →
  crashed s = false ∧ mu s = false ∧ fatal s = None ∧
  mainpc s ≠ MFatal ∧
  (∀ msg, mainpc s ≠ MWait (Panics msg)) ∧
  (∀ r, mainpc s = MReturned r → bridge s ≠ BNone → r = ErrClientHasQuit).
Proof.
  intros Hok Hex.
  assert (signalled_inv s) as (Hcr & Hmu & Hfa & _ & _ & Hpc).
  { apply (exec_with signalled_inv signal_only ls (client h w n)); try done.
    - apply step_signalled.
    - apply Inv_client.
    - unfold signalled_inv, calm; simpl. split_and!; try done. }
  split_and!; try done.
  - intros E. by rewrite E in Hpc.
  - intros msg E. by rewrite E in Hpc.
  - intros r E Hbr. rewrite E in Hpc. by destruct Hpc.
Qed.

Lemma signal_stop_is_clean_witness :
  forallb signal_only signal_run = true ∧
  exec signal_run (client HandlerFunc 10 1) = Some signalled ∧
  mainpc signalled = MReturned ErrClientHasQuit ∧ crashed signalled = false.
Proof.
  assert (forallb signal_only signal_run = true) as Hok by reflexivity.
  assert (exec signal_run (client HandlerFunc 10 1) = Some signalled) as Hex
    by (vm_compute; reflexivity).
  split_and!; [done|done|reflexivity|].
  apply (signal_stop_is_clean _ _ _ _ _ Hok Hex).
Defined.


(** ** A stop during the idle phase *)

(** A [Stop] that arrives while Reserve sleeps between two scans shuts the
    client down: Reserve can wake up on the closed channel at once, and
    when the handlers still at work have returned it returns
    [ErrClientHasQuit], with the connection closed. *)
Theorem stop_while_idle_quits s :
  reachable s → crashed s = false → mainpc s = MIdle →
  stop s = ChOpen → mu s = false → bridge s = BSelect → calm s →
  ∃ ls s', exec (LStop :: LIdle CaseStop :: ls) s = Some s' ∧
           mainpc s' = MReturned ErrClientHasQuit ∧ closed s' = true ∧
           crashed s' = false.
Proof.
  intros Hreach Hcr Hpc Hst Hmu Hbr Hcalm.
  pose proof (reachable_inv _ Hreach) as HI.
  set (s1 := set_stop ChClosed s).
  set (s2 := set_mainpc (MWait quit) (set_stop_seen true s1)).
  assert (step LStop s = Some s1) as H1.
  { unfold step, Stop. by rewrite Hcr, Hmu, Hst. }
  assert (step (LIdle CaseStop) s1 = Some s2) as H2.
  { unfold step, Reserve_step. simpl. by rewrite Hcr, Hpc. }
  destruct (can_return s2 ErrClientHasQuit) as (ls & s3 & Hex & ? & ? & ?);
    try done.
  - eauto using step_inv.
  - unfold bridge_quiet. simpl. auto.
  - exists ls, s3. simpl. rewrite H1. simpl. rewrite H2. done.
Qed.

Lemma stop_while_idle_quits_witness :
  reachable scanned_ab ∧ mainpc scanned_ab = MIdle ∧
  ∃ ls s', exec (LStop :: LIdle CaseStop :: ls) scanned_ab = Some s' ∧
           mainpc s' = MReturned ErrClientHasQuit.
Proof.
  assert (reachable scanned_ab) as Hreach.
  { exists (WorkMux ["a"; "b"]), 10%Z, 2, scan_ab. vm_compute. reflexivity. }
  assert (mainpc scanned_ab = MIdle) as Hpc by reflexivity.
  split_and!; [done|done|].
  destruct (stop_while_idle_quits scanned_ab Hreach eq_refl Hpc eq_refl eq_refl eq_refl)
    as (ls & s' & Hex & Hret & _); [constructor|].
  by exists ls, s'.
Defined.
